(** * Dependency graph of the todo application

    A shallow embedding of [src/app/api/todos/[id]/dependencies/route.ts]:
    the cycle detector ([hasCircularDependencies]), the earliest-start
    calculator ([calculateEarliestStart]), the critical-path marker
    ([updateCriticalPathStatus], [markCriticalPath]) and the two handlers
    that edit the edge set ([POST], [DELETE]), over a model of the two
    tables that the migrations create ([Todo] and [_TodoDependencies]).

    Dates are instants, in milliseconds since the epoch ([Date.getTime]),
    as [Z]; identifiers are the integer primary keys, as [Z]; a JavaScript
    [Set<number>] is a [gset Z]. The recursive functions of the source are
    [async] functions without any bound on their depth: they take a [fuel]
    argument here, and a run that exhausts it stands for a call that has
    not returned within that many nested calls. *)

From stdpp Require Import base option list gmap sets strings relations.
From Stdlib Require Import ZArith Lia.

Local Open Scope Z_scope.
Set Warnings "-clear-no-such-hyp".

(** ** The tables *)

(** A row of table [Todo], with the columns of the last migration. *)
Module Todo.
Record Todo : Type := mk {
  id : Z;
  title : string;
  dueDate : option Z;
  imageUrl : option string;
  imageId : option string;
  createdAt : Z;
  earliestStart : option Z;
  isCritical : bool
}.

(** [data: { isCritical: b }] *)
Definition set_isCritical (b : bool) (t : Todo) : Todo :=
  mk (id t) (title t) (dueDate t) (imageUrl t) (imageId t)
     (createdAt t) (earliestStart t) b.

(** [data: { earliestStart: d }] *)
Definition set_earliestStart (d : option Z) (t : Todo) : Todo :=
  mk (id t) (title t) (dueDate t) (imageUrl t) (imageId t)
     (createdAt t) d (isCritical t).
End Todo.
Abbreviation Todo := Todo.Todo.

(** The database: the rows of [Todo], and the rows of the join table
    [_TodoDependencies], each a pair (dependent, dependency): the first
    component depends on the second. *)
Record Store : Type := mkStore {
  todos : list Todo;
  edges : list (Z * Z)
}.

(** ** Queries of the store *)

(** [prisma.todo.findUnique({ where: { id } })]: the row, or [null]. *)
Definition findUnique (s : Store) (i : Z) : option Todo :=
  find (λ t, bool_decide (Todo.id t = i)) (todos s).

(** [include: { dependencies: true }]: the rows that todo [i] depends on,
    joined through the edge table, in the order of that table. *)
Definition dependencies (s : Store) (i : Z) : list Todo :=
  omap (λ e, if decide (e.1 = i) then findUnique s e.2 else None) (edges s).

(** [include: { dependents: true }]: the rows that depend on todo [i]. *)
Definition dependents (s : Store) (i : Z) : list Todo :=
  omap (λ e, if decide (e.2 = i) then findUnique s e.1 else None) (edges s).

(** [prisma.todo.findMany(...)]: every row. *)
Definition findMany (s : Store) : list Todo := todos s.

(** ** Updates of the store *)

(** [prisma.todo.update({ where: { id }, data })] on scalar columns: the
    row is rewritten; the call throws ([None]) when no row has that id. *)
Definition update (i : Z) (f : Todo → Todo) (s : Store) : option Store :=
  match findUnique s i with
  | None => None
  | Some _ =>
      Some (mkStore
              (map (λ t, if decide (Todo.id t = i) then f t else t) (todos s))
              (edges s))
  end.

(** [prisma.todo.updateMany({ data })]: every row is rewritten. *)
Definition updateMany (f : Todo → Todo) (s : Store) : Store :=
  mkStore (map f (todos s)) (edges s).

(** Adding one row to the join table; the unique index on the pair keeps
    a pair that is already there single. *)
Definition addEdge (e : Z * Z) (es : list (Z * Z)) : list (Z * Z) :=
  if decide (e ∈ es) then es else es ++ [e].

(** [update({ where: { id }, data: { dependencies: { connect: [...] } } })]:
    the pairs (id, depId) are added. Both columns of the join table are
    foreign keys into [Todo]: the call throws ([None]), and adds nothing,
    when the todo or one of the listed rows does not exist. *)
Definition connect (i : Z) (dependencyIds : list Z) (s : Store) : option Store :=
  match findUnique s i with
  | None => None
  | Some _ =>
      if forallb (λ d, bool_decide (is_Some (findUnique s d))) dependencyIds
      then Some (mkStore (todos s)
                   (foldl (λ es d, addEdge (i, d) es) (edges s) dependencyIds))
      else None
  end.

(** [update({ where: { id }, data: { dependencies: { disconnect: [...] } } })]:
    the pairs (id, depId) are removed; a pair that is not there is no
    error. The call throws ([None]) when the todo does not exist. *)
Definition disconnect (i : Z) (dependencyIds : list Z) (s : Store) : option Store :=
  match findUnique s i with
  | None => None
  | Some _ =>
      Some (mkStore (todos s)
              (filter (λ e, ¬ (e.1 = i ∧ e.2 ∈ dependencyIds)) (edges s)))
  end.

(** ** The cycle detector *)

(** The two sets that [hasCircularDependencies] allocates and that its
    inner function [dfs] reads and writes. *)
Record DfsState : Type := mkDfs {
  visited : gset Z;
  recursionStack : gset Z
}.

(** The [for] loop of [dfs] over [todo.dependencies]; [rec] is the
    recursive call. The result [None] is a call that did not return. *)
Fixpoint dfs_loop (rec : Z → DfsState → option (bool * DfsState))
    (newDependencyId currentId : Z) (deps : list Todo) (st : DfsState)
    : option (bool * DfsState) :=
  match deps with
  | [] =>
      Some (false, mkDfs (visited st) (recursionStack st ∖ {[currentId]}))
  | dependency :: rest =>
      if decide (Todo.id dependency = newDependencyId) then Some (true, st)
      else
        match rec (Todo.id dependency) st with
        | None => None
        | Some (true, st') => Some (true, st')
        | Some (false, st') => dfs_loop rec newDependencyId currentId rest st'
        end
  end.

Fixpoint dfs (fuel : nat) (s : Store) (newDependencyId currentId : Z)
    (st : DfsState) : option (bool * DfsState) :=
  match fuel with
  | O => None
  | S fuel' =>
      if decide (currentId ∈ recursionStack st) then Some (true, st)
      else if decide (currentId ∈ visited st) then Some (false, st)
      else
        let st1 := mkDfs ({[currentId]} ∪ visited st)
                         ({[currentId]} ∪ recursionStack st) in
        match findUnique s currentId with
        | None => Some (false, st1)
        | Some todo =>
            dfs_loop (dfs fuel' s newDependencyId) newDependencyId currentId
              (dependencies s currentId) st1
        end
  end.

(** [hasCircularDependencies(todoId, newDependencyId)]. The search starts
    at [newDependencyId] and compares what it meets with [newDependencyId];
    the parameter [todoId] is not read. *)
Definition hasCircularDependencies (fuel : nat) (s : Store)
    (todoId newDependencyId : Z) : option bool :=
  fst <$> dfs fuel s newDependencyId newDependencyId (mkDfs ∅ ∅).

(** ** The earliest-start calculator *)

(** [depEarliestStart || dep.dueDate || dep.createdAt], the date that the
    entry [dep] of [todo.dependencies] contributes. A [Date] object is
    never falsy, so each [||] passes on exactly when its left side is
    [null]. *)
Definition firstDate (depEarliestStart : option Z) (dep : Todo) : Z :=
  default (default (Todo.createdAt dep) (Todo.dueDate dep)) depEarliestStart.

(** The function that [calculateEarliestStart] maps over the
    dependencies; [rec] is the recursive call. *)
Definition dependencyDate (rec : Z → option (option Z)) (dep : Todo)
    : option Z :=
  depEarliestStart ← rec (Todo.id dep);
  Some (firstDate depEarliestStart dep).

(** [calculateEarliestStart(todoId)]: a date or [null], or [None] when the
    call did not return. [Promise.all] over the mapped dependencies
    settles when every entry has; [Math.max] is taken over the instants of
    a list that has a first element, because the empty case returned
    before. *)
Fixpoint calculateEarliestStart (fuel : nat) (s : Store) (todoId : Z)
    : option (option Z) :=
  match fuel with
  | O => None
  | S fuel' =>
      match findUnique s todoId with
      | None => Some None
      | Some todo =>
          match dependencies s todoId with
          | [] => Some (Some (Todo.createdAt todo))
          | dep :: rest =>
              d ← dependencyDate (calculateEarliestStart fuel' s) dep;
              ds ← mapM (dependencyDate (calculateEarliestStart fuel' s)) rest;
              Some (Some (foldl Z.max d ds))
          end
      end
  end.

(** ** Calls that write the store *)

(** What a call that may write the store does: it returns a value, or
    throws, or has not returned when the fuel is spent. Each case carries
    the store as the call has left it: nothing is rolled back when a call
    throws or hangs. *)
Inductive outcome (A : Type) : Type :=
  | Returned (a : A) (s : Store)
  | Thrown (s : Store)
  | Pending (s : Store).
Arguments Returned {A} a s.
Arguments Thrown {A} s.
Arguments Pending {A} s.

Definition Prisma (A : Type) : Type := Store → outcome A.

Definition ret {A} (a : A) : Prisma A := λ s, Returned a s.

Definition bind {A B} (m : Prisma A) (k : A → Prisma B) : Prisma B :=
  λ s, match m s with
       | Returned a s' => k a s'
       | Thrown s' => Thrown s'
       | Pending s' => Pending s'
       end.

Notation "'await' x ← m ; k" := (bind m (λ x, k))
  (at level 10, x name, m at level 100, k at level 200,
   format "'[v' 'await'  x  ←  m ; '/' k ']'").

(** A query. *)
Definition read {A} (q : Store → A) : Prisma A := λ s, Returned (q s) s.

(** A helper that only reads and may not return. *)
Definition readRec {A} (q : Store → option A) : Prisma A :=
  λ s, match q s with Some a => Returned a s | None => Pending s end.

(** An update that throws when it yields [None]. *)
Definition write (u : Store → option Store) : Prisma unit :=
  λ s, match u s with Some s' => Returned () s' | None => Thrown s end.

(** An update that cannot throw. *)
Definition modify (u : Store → Store) : Prisma unit :=
  λ s, Returned () (u s).

(** [try { body } catch (error) { handler }] *)
Definition try_catch {A} (body handler : Prisma A) : Prisma A :=
  λ s, match body s with Thrown s' => handler s' | r => r end.

(** [for (const x of xs) { await body(x) }] *)
Fixpoint forEach {A} (xs : list A) (body : A → Prisma unit) : Prisma unit :=
  match xs with
  | [] => ret ()
  | x :: xs' => await _ ← body x; forEach xs' body
  end.

(** ** The critical-path marker *)

(** [dep.dueDate || dep.createdAt] *)
Definition completionDate (dep : Todo) : Z :=
  default (Todo.createdAt dep) (Todo.dueDate dep).

(** The loop of [markCriticalPath] that selects [latestDependency]: it
    starts from [todo.dependencies[0]] and replaces it on a strictly later
    date only. *)
Definition latestDependency (first : Todo) (deps : list Todo) : Todo :=
  fst (foldl (λ latest dep,
                if decide (latest.2 < completionDate dep)
                then (dep, completionDate dep) else latest)
             (first, completionDate first) deps).

Fixpoint markCriticalPath (fuel : nat) (todoId : Z) : Prisma unit :=
  match fuel with
  | O => λ s, Pending s
  | S fuel' =>
      await _ ← write (update todoId (Todo.set_isCritical true));
      await todo ← read (λ s, findUnique s todoId);
      await deps ← read (λ s, dependencies s todoId);
      match todo, deps with
      | Some _, first :: _ =>
          markCriticalPath fuel' (Todo.id (latestDependency first deps))
      | _, _ => ret ()
      end
  end.

(** [updateCriticalPathStatus()]. The end nodes are filtered from the rows
    read before the flags are reset. *)
Definition updateCriticalPathStatus (fuel : nat) : Prisma unit :=
  await endNodes ← read (λ s,
    filter (λ todo, dependents s (Todo.id todo) = []) (findMany s));
  await _ ← modify (updateMany (Todo.set_isCritical false));
  forEach endNodes (λ endNode, markCriticalPath fuel (Todo.id endNode)).

(** ** The handlers *)

(** The JSON bodies that the two handlers answer with, after the request
    was parsed: [id] is an integer and [dependencyIds] an array of
    integers. The specification calls the second, third and fourth
    [TaskNotFound], [SelfDependency] and [CycleDetected]. *)
Inductive Response : Type :=
  | DependenciesAdded           (* 200, 'Dependencies added successfully' *)
  | DependenciesRemoved         (* 200, 'Dependencies removed successfully' *)
  | TodoNotFound                (* 404, 'Todo not found' *)
  | CannotAddSelf               (* 400, 'Cannot add self as dependency' *)
  | WouldCreateCircular (depId : Z)
      (* 400, 'Adding dependency ${depId} would create a circular dependency' *)
  | ErrorAddingDependencies     (* 500, 'Error adding dependencies' *)
  | ErrorRemovingDependencies.  (* 500, 'Error removing dependencies' *)

Global Instance Response_eq_dec : EqDecision Response.
Proof. solve_decision. Defined.

(** The loop of [POST] that checks the candidates in the order of the
    request; [Some r] is the early [return] of response [r]. *)
Fixpoint checkDependencies (fuel : nat) (id : Z) (dependencyIds : list Z)
    : Prisma (option Response) :=
  match dependencyIds with
  | [] => ret None
  | depId :: rest =>
      if decide (depId = id) then ret (Some CannotAddSelf)
      else
        await circular ← readRec (λ s, hasCircularDependencies fuel s id depId);
        if circular : bool then ret (Some (WouldCreateCircular depId))
        else checkDependencies fuel id rest
  end.

(** [POST /api/todos/[id]/dependencies]: add dependencies to a todo. *)
Definition POST (fuel : nat) (id : Z) (dependencyIds : list Z)
    : Prisma Response :=
  try_catch
    (await todo ← read (λ s, findUnique s id);
     match todo with
     | None => ret TodoNotFound
     | Some _ =>
         await rejected ← checkDependencies fuel id dependencyIds;
         match rejected with
         | Some response => ret response
         | None =>
             await _ ← write (connect id dependencyIds);
             await newEarliestStart ←
               readRec (λ s, calculateEarliestStart fuel s id);
             await _ ← write (update id (Todo.set_earliestStart newEarliestStart));
             await _ ← updateCriticalPathStatus fuel;
             ret DependenciesAdded
         end
     end)
    (ret ErrorAddingDependencies).

(** [DELETE /api/todos/[id]/dependencies]: remove dependencies from a
    todo. *)
Definition DELETE (fuel : nat) (id : Z) (dependencyIds : list Z)
    : Prisma Response :=
  try_catch
    (await _ ← write (disconnect id dependencyIds);
     await newEarliestStart ← readRec (λ s, calculateEarliestStart fuel s id);
     await _ ← write (update id (Todo.set_earliestStart newEarliestStart));
     await _ ← updateCriticalPathStatus fuel;
     ret DependenciesRemoved)
    (ret ErrorRemovingDependencies).

(** ** Stores of the examples *)

(** A row as [POST /api/todos] creates it: no image, no earliest start,
    not critical. *)
Definition created (i : Z) (title : string) (due : option Z) (at_ : Z) : Todo :=
  Todo.mk i title due None None at_ None false.

(** The instant at which day [n] begins. *)
Definition day (n : Z) : Z := n * 86400000.

(** Two todos without edges, then A depending on B as [POST 1 [2]] leaves
    them, then the same with the edge from B back to A. *)
Definition twoTodos : Store :=
  mkStore [created 1 "A" None (day 1); created 2 "B" None (day 2)] [].

Definition aDependsOnB : Store :=
  mkStore [Todo.mk 1 "A" None None None (day 1) (Some (day 2)) true;
           Todo.mk 2 "B" None None None (day 2) None true]
          [(1, 2)].

Definition cyclicStore : Store :=
  mkStore (todos aDependsOnB) [(1, 2); (2, 1)].

(** Three todos of which the first two depend on each other. *)
Definition threeCyclic : Store :=
  mkStore [Todo.mk 1 "A" None None None (day 1) (Some (day 2)) true;
           Todo.mk 2 "B" (Some (day 5)) None None (day 2) None true;
           Todo.mk 3 "C" None None None (day 3) None true]
          [(1, 2); (2, 1)].

(** The scenario of the specification: A created on day 1 without due
    date, B due on day 5, C; no edges yet. The days on which B and C were
    created are left open. *)
Definition scenarioStart (bCreated cCreated : Z) : Store :=
  mkStore [created 1 "A" None (day 1);
           created 2 "B" (Some (day 5)) bCreated;
           created 3 "C" None cCreated] [].

(** The scenario after C was made to depend on B. *)
Definition scenarioMid (bCreated cCreated : Z) : Store :=
  mkStore [Todo.mk 1 "A" None None None (day 1) None true;
           Todo.mk 2 "B" (Some (day 5)) None None bCreated None true;
           Todo.mk 3 "C" None None None cCreated (Some bCreated) true]
          [(3, 2)].

(** The scenario after C was made to depend on B and then B on A. *)
Definition scenarioEnd (bCreated cCreated : Z) : Store :=
  mkStore [Todo.mk 1 "A" None None None (day 1) None true;
           Todo.mk 2 "B" (Some (day 5)) None None bCreated (Some (day 1)) true;
           Todo.mk 3 "C" None None None cCreated (Some bCreated) true]
          [(3, 2); (2, 1)].

(** ** The dependency graph *)

(** The identifiers of the rows. *)
Definition ids (s : Store) : gset Z := list_to_set (Todo.id <$> todos s).

(** [depends s x y]: todo [x] is in the store and [y] is the id of one of
    the rows that [include: { dependencies: true }] returns for it. *)
Definition depends (s : Store) (x y : Z) : Prop :=
  is_Some (findUnique s x) ∧ y ∈ (Todo.id <$> dependencies s x).

(** No todo depends, directly or transitively, on itself. *)
Definition Acyclic (s : Store) : Prop := ∀ x, ¬ tc (depends s) x x.

(** Following dependencies from [x] one can reach a todo that depends,
    directly or transitively, on itself. *)
Definition reachesCycle (s : Store) (x : Z) : Prop :=
  ∃ y, rtc (depends s) x y ∧ tc (depends s) y y.

(** [chain s p x]: the todos of [p] are distinct rows that all depend,
    directly or transitively, on [x]. *)
Definition chain (s : Store) (p : list Z) (x : Z) : Prop :=
  NoDup p ∧ ∀ y, y ∈ p → y ∈ ids s ∧ tc (depends s) y x.

(** The rows that a search has not visited yet. Each call of [dfs] that
    goes on to read the store has put a row not seen before into
    [visited]: their number bounds the depth of the search. *)
Definition unvisited (s : Store) (st : DfsState) : nat :=
  size (ids s ∖ visited st).

(** With [fuel] above the number of unvisited rows, [dfs] returns, and
    [visited] has only grown. *)
Definition returns_below (s : Store) (newDependencyId : Z) (fuel : nat) : Prop :=
  ∀ cur st, (unvisited s st < fuel)%nat →
    ∃ b st', dfs fuel s newDependencyId cur st = Some (b, st')
             ∧ visited st ⊆ visited st'.

(** [calculateEarliestStart(x)] returns [r]. *)
Definition earliestStartIs (s : Store) (x : Z) (r : option Z) : Prop :=
  ∃ fuel, calculateEarliestStart fuel s x = Some r.

(** The store that a call has left. *)
Definition final {A} (o : outcome A) : Store :=
  match o with Returned _ s | Thrown s | Pending s => s end.

(** Two stores that differ at most in the [isCritical] column: resetting
    that column makes them equal. *)
Definition sameButCritical (s s' : Store) : Prop :=
  updateMany (Todo.set_isCritical false) s
  = updateMany (Todo.set_isCritical false) s'.

(** The identifiers of the end nodes that [updateCriticalPathStatus]
    starts a walk from. *)
Definition endNodeIds (s : Store) : list Z :=
  Todo.id <$> filter (λ todo, dependents s (Todo.id todo) = []) (findMany s).

(** Candidate [c] of a request on todo [id] fails its check in the loop
    of [POST]: it is [id] itself, or the cycle detector answers [true]. *)
Definition candidateFails (fuel : nat) (s : Store) (id c : Z) : Prop :=
  c = id ∨ hasCircularDependencies fuel s id c = Some true.

Global Instance candidateFails_dec fuel s id c :
  Decision (candidateFails fuel s id c).
Proof. unfold candidateFails. apply _. Defined.

(** The response that the loop of [POST] returns on a failing candidate. *)
Definition rejection (id c : Z) : Response :=
  if decide (c = id) then CannotAddSelf else WouldCreateCircular c.

(** The todos that a search has finished: visited and no longer on the
    recursion stack. *)
Definition finished (st : DfsState) (v : Z) : Prop :=
  v ∈ visited st ∧ v ∉ recursionStack st.

(** [settled s st rank bound]: every dependency of a finished todo is
    finished and has a smaller rank, and the ranks of the finished todos
    are below [bound]. *)
Definition settled (s : Store) (st : DfsState) (rank : Z → nat) (bound : nat)
    : Prop :=
  (∀ v w, finished st v → depends s v w → finished st w ∧ (rank w < rank v)%nat)
  ∧ (∀ v, finished st v → (rank v < bound)%nat).

(** A todo of the store without dependencies. *)
Definition source (s : Store) (y : Z) (t : Todo) : Prop :=
  findUnique s y = Some t ∧ dependencies s y = [].

(** What the schema asks of the join table: the unique index on the pair,
    the two foreign keys; and no todo depends directly on itself. *)
Definition wellFormed (s : Store) : Prop :=
  NoDup (edges s)
  ∧ ∀ a b, (a, b) ∈ edges s →
      is_Some (findUnique s a) ∧ is_Some (findUnique s b) ∧ a ≠ b.

(** The row that [update] rewrites with [f], as a function of all rows. *)
Definition rewriteRow (i : Z) (f : Todo → Todo) (t : Todo) : Todo :=
  if decide (Todo.id t = i) then f t else t.

(** [f] changes neither the id nor the dates that the calculator and the
    marker read. *)
Definition keepsDates (f : Todo → Todo) : Prop :=
  ∀ t, Todo.id (f t) = Todo.id t
       ∧ Todo.createdAt (f t) = Todo.createdAt t
       ∧ Todo.dueDate (f t) = Todo.dueDate t.


(** The dependency that [markCriticalPath] goes on to from todo [x], if
    [x] has any. *)
Definition latestId (s : Store) (x : Z) : option Z :=
  match dependencies s x with
  | [] => None
  | first :: rest => Some (Todo.id (latestDependency first (first :: rest)))
  end.

(** One step of a backward walk. *)
Definition latestStep (s : Store) (x y : Z) : Prop :=
  is_Some (findUnique s x) ∧ latestId s x = Some y.

(** One round of the loop in [markCriticalPath]. *)
Definition laterOf (latest : Todo * Z) (dep : Todo) : Todo * Z :=
  if decide (latest.2 < completionDate dep)
  then (dep, completionDate dep) else latest.

(** [a] is the first of the todos of [p] with the latest completion
    date. *)
Definition firstLatest (p : list Todo) (a : Todo) : Prop :=
  ∃ i, p !! i = Some a
    ∧ (∀ d, d ∈ p → completionDate d ≤ completionDate a)
    ∧ (∀ j d, (j < i)%nat → p !! j = Some d →
         completionDate d < completionDate a).

(** ** The handler that reads the relations *)

(** The columns that [GET] selects of a related todo. *)
Module Related.
Record Related : Type := mk {
  id : Z;
  title : string;
  dueDate : option Z;
  earliestStart : option Z;
  isCritical : bool
}.
End Related.
Abbreviation Related := Related.Related.

(** [select: { id: true, title: true, dueDate: true, earliestStart: true,
    isCritical: true }] *)
Definition select (t : Todo) : Related :=
  Related.mk (Todo.id t) (Todo.title t) (Todo.dueDate t)
             (Todo.earliestStart t) (Todo.isCritical t).

(** The JSON bodies that [GET] answers with. *)
Inductive GetResponse : Type :=
  | Relations (dependencies dependents : list Related)  (* 200 *)
  | GetTodoNotFound               (* 404, 'Todo not found' *)
  | ErrorFetchingDependencies.    (* 500, 'Error fetching dependencies' *)

(** [GET /api/todos/[id]/dependencies]: the dependencies and the
    dependents of a todo. *)
Definition GET (id : Z) : Prisma GetResponse :=
  try_catch
    (await todo ← read (λ s, findUnique s id);
     match todo with
     | None => ret GetTodoNotFound
     | Some _ =>
         await deps ← read (λ s, dependencies s id);
         await dpts ← read (λ s, dependents s id);
         ret (Relations (select <$> deps) (select <$> dpts))
     end)
    (ret ErrorFetchingDependencies).

(** ** The dialog that edits the dependencies of a todo *)

(** [selectedDependencies.filter(id => !currentDependencyIds.includes(id))]
    in [handleSave] of [DependencyModal]. *)
Definition toAdd (selectedDependencies currentDependencyIds : list Z) : list Z :=
  filter (λ id, id ∉ currentDependencyIds) selectedDependencies.

(** [currentDependencyIds.filter(id => !selectedDependencies.includes(id))] *)
Definition toRemove (selectedDependencies currentDependencyIds : list Z)
    : list Z :=
  filter (λ id, id ∉ selectedDependencies) currentDependencyIds.

(** The state update of [handleDependencyToggle]. *)
Definition handleDependencyToggle (prev : list Z) (todoId : Z) : list Z :=
  if decide (todoId ∈ prev) then filter (λ id, id ≠ todoId) prev
  else prev ++ [todoId].

(** [handleSave], with the two callbacks that [Home] passes to the dialog
    ([handleAddDependencies] and [handleRemoveDependencies], each a
    [fetch] of the handler above whose failure it catches itself): the
    request to add is sent if there is something to add, and then, however
    it was answered, the request to remove if there is something to
    remove. The pair is what the two requests were answered with. *)
Definition handleSave (fuel : nat) (todoId : Z)
    (currentDependencyIds selectedDependencies : list Z)
    : Prisma (option Response * option Response) :=
  await added ←
    match toAdd selectedDependencies currentDependencyIds with
    | [] => ret None
    | _ :: _ =>
        await r ← POST fuel todoId
                    (toAdd selectedDependencies currentDependencyIds);
        ret (Some r)
    end;
  await removed ←
    match toRemove selectedDependencies currentDependencyIds with
    | [] => ret None
    | _ :: _ =>
        await r ← DELETE fuel todoId
                    (toRemove selectedDependencies currentDependencyIds);
        ret (Some r)
    end;
  ret (added, removed).

(** * Properties *)

(** ** Rows and joins *)

Lemma findUnique_Some s i t :
  findUnique s i = Some t → Todo.id t = i ∧ t ∈ todos s.
Proof.
  unfold findUnique. intros H. apply find_some in H as [Hin Hb].
  apply bool_decide_eq_true in Hb. split; [done|]. by apply list_elem_of_In.
Qed.

Lemma findUnique_None s i :
  findUnique s i = None ↔ i ∉ ids s.
Proof.
  unfold findUnique, ids. rewrite elem_of_list_to_set, list_elem_of_fmap. split.
  - intros H [t [-> Hin]]. apply list_elem_of_In in Hin.
    apply (find_none _ _ H) in Hin. by apply bool_decide_eq_false in Hin.
  - intros H. destruct (find _ _) as [t|] eqn:E; [|done].
    apply find_some in E as [Hin Hb]. apply bool_decide_eq_true in Hb.
    destruct H. exists t. split; [done|]. by apply list_elem_of_In.
Qed.

Lemma findUnique_is_Some s i : is_Some (findUnique s i) ↔ i ∈ ids s.
Proof.
  rewrite <-not_eq_None_Some, findUnique_None.
  destruct (decide (i ∈ ids s)); naive_solver.
Qed.

Lemma ids_size s : (size (ids s) ≤ length (todos s))%nat.
Proof.
  unfold ids. rewrite <-(length_fmap Todo.id (todos s)).
  generalize (Todo.id <$> todos s). intros l. induction l as [|x l IH].
  - by rewrite list_to_set_nil, size_empty.
  - rewrite list_to_set_cons, size_union_alt, size_singleton.
    assert (size (list_to_set l ∖ {[x]} : gset Z) ≤ size (list_to_set l : gset Z))%nat
      as Hle; [apply subseteq_size; set_solver|].
    simpl. lia.
Qed.

Lemma dependencies_elem s i d :
  d ∈ dependencies s i ↔ (i, Todo.id d) ∈ edges s ∧ findUnique s (Todo.id d) = Some d.
Proof.
  unfold dependencies. rewrite list_elem_of_omap. split.
  - intros [[a b] [Hin He]]. simpl in He. case_decide; [|done]. subst a.
    pose proof (findUnique_Some _ _ _ He) as [<- _]. done.
  - intros [Hin Hf]. exists (i, Todo.id d). split; [done|]. simpl.
    by rewrite decide_True.
Qed.

Lemma dependents_elem s i d :
  d ∈ dependents s i ↔ (Todo.id d, i) ∈ edges s ∧ findUnique s (Todo.id d) = Some d.
Proof.
  unfold dependents. rewrite list_elem_of_omap. split.
  - intros [[a b] [Hin He]]. simpl in He. case_decide; [|done]. subst b.
    pose proof (findUnique_Some _ _ _ He) as [<- _]. done.
  - intros [Hin Hf]. exists (Todo.id d, i). split; [done|]. simpl.
    by rewrite decide_True.
Qed.

Lemma depends_target s x y : depends s x y → is_Some (findUnique s y).
Proof.
  intros [_ Hy]. apply list_elem_of_fmap in Hy as [d [-> Hd]].
  apply dependencies_elem in Hd as [_ Hd]. eauto.
Qed.

(** ** The search returns *)

Lemma unvisited_mono s st st' :
  visited st ⊆ visited st' → (unvisited s st' ≤ unvisited s st)%nat.
Proof. intros H. apply subseteq_size. set_solver. Qed.

Lemma unvisited_add s st c rs :
  c ∈ ids s → c ∉ visited st →
  (unvisited s (mkDfs ({[c]} ∪ visited st) rs) < unvisited s st)%nat.
Proof.
  intros Hc Hv. apply subset_size. simpl. set_solver.
Qed.

Section dfs_returns.
Context (s : Store) (newDependencyId : Z).

Lemma dfs_loop_returns fuel cur deps st :
  returns_below s newDependencyId fuel → (unvisited s st < fuel)%nat →
  ∃ b st', dfs_loop (dfs fuel s newDependencyId) newDependencyId cur deps st
           = Some (b, st') ∧ visited st ⊆ visited st'.
Proof.
  intros IH. revert st. induction deps as [|d deps IHd]; intros st Hlt; simpl.
  - eexists _, _. split; [done|]. done.
  - case_decide; [by eexists _, _|].
    destruct (IH (Todo.id d) st Hlt) as (b & st1 & -> & Hsub).
    destruct b; [by eexists _, _|].
    destruct (IHd st1) as (b & st2 & -> & Hsub2).
    + pose proof (unvisited_mono s _ _ Hsub). lia.
    + eexists _, _. split; [done|]. set_solver.
Qed.

Lemma dfs_returns fuel : returns_below s newDependencyId fuel.
Proof.
  induction fuel as [|fuel IH]; intros cur st Hlt; [lia|]. simpl.
  case_decide; [by eexists _, _|]. case_decide; [by eexists _, _|].
  destruct (findUnique s cur) as [todo|] eqn:E.
  - destruct (dfs_loop_returns fuel cur (dependencies s cur)
                (mkDfs ({[cur]} ∪ visited st) ({[cur]} ∪ recursionStack st)) IH)
      as (b & st' & -> & Hsub).
    + assert (cur ∈ ids s) by (apply findUnique_is_Some; eauto).
      pose proof (unvisited_add s st cur ({[cur]} ∪ recursionStack st)).
      naive_solver lia.
    + eexists _, _. split; [done|]. simpl in Hsub. set_solver.
  - eexists _, _. split; [done|]. simpl. set_solver.
Qed.
End dfs_returns.

(** With more fuel than the store has rows the cycle detector returns. *)
Lemma hasCircularDependencies_returns fuel s todoId newDependencyId :
  (length (todos s) < fuel)%nat →
  ∃ b, hasCircularDependencies fuel s todoId newDependencyId = Some b.
Proof.
  intros Hlt. unfold hasCircularDependencies.
  destruct (dfs_returns s newDependencyId fuel newDependencyId (mkDfs ∅ ∅))
    as (b & st' & -> & _); [|by exists b].
  unfold unvisited. simpl. pose proof (ids_size s).
  assert (size (ids s ∖ ∅) ≤ size (ids s))%nat by (apply subseteq_size; set_solver).
  lia.
Qed.

(** ** Chains of dependencies in an acyclic store *)

Lemma NoDup_ids_length s (p : list Z) :
  NoDup p → (∀ y, y ∈ p → y ∈ ids s) → (length p ≤ length (todos s))%nat.
Proof.
  intros Hnd Hin. etrans; [|apply ids_size].
  rewrite <-(size_list_to_set (C:=gset Z) p Hnd). apply subseteq_size. set_solver.
Qed.

Lemma chain_nil s x : chain s [] x.
Proof. split; [constructor|]. intros y Hy. by apply elem_of_nil in Hy. Qed.

Lemma chain_length s p x : chain s p x → (length p ≤ length (todos s))%nat.
Proof. intros [Hnd Hp]. apply NoDup_ids_length; naive_solver. Qed.

Lemma chain_step s p x d :
  Acyclic s → chain s p x → depends s x d → chain s (x :: p) d.
Proof.
  intros Hac [Hnd Hp] Hd. split.
  - constructor; [|done]. intros Hx. apply Hp in Hx as [_ Hx]. by apply Hac in Hx.
  - intros y Hy. apply elem_of_cons in Hy as [->|Hy].
    + split; [|by apply tc_once]. apply findUnique_is_Some, Hd.
    + apply Hp in Hy as [? Hy]. split; [done|]. eapply tc_r; eauto.
Qed.

Lemma depends_intro s x todo dep :
  findUnique s x = Some todo → dep ∈ dependencies s x → depends s x (Todo.id dep).
Proof. intros Hx Hd. split; [eauto|]. apply list_elem_of_fmap. eauto. Qed.

(** From a todo that reaches a cycle, one dependency reaches it too. *)
Lemma reachesCycle_step s x :
  reachesCycle s x →
  ∃ todo dep, findUnique s x = Some todo ∧ dep ∈ dependencies s x
              ∧ reachesCycle s (Todo.id dep).
Proof.
  intros (y & Hxy & Hyy).
  assert (∃ d, depends s x d ∧ reachesCycle s d) as (d & Hd & Hr).
  { destruct Hxy as [x|x z y Hxz Hzy].
    - inversion Hyy as [? ? Hd|? z ? Hd Hz]; subst.
      + exists x. split; [done|]. exists x. split; [done|]. by apply tc_once.
      + exists z. split; [done|]. exists x. split; [by apply tc_rtc|done].
    - exists z. split; [done|]. by exists y. }
  destruct Hd as [[todo Ht] Hin]. apply list_elem_of_fmap in Hin as (dep & -> & Hin).
  by exists todo, dep.
Qed.

(** ** What the search answers *)

Lemma dfs_loop_mono (rec rec' : Z → DfsState → option (bool * DfsState))
    nd cur deps st r :
  (∀ c st r, rec c st = Some r → rec' c st = Some r) →
  dfs_loop rec nd cur deps st = Some r →
  dfs_loop rec' nd cur deps st = Some r.
Proof.
  intros Hrec. revert st. induction deps as [|d deps IH]; intros st; simpl; [done|].
  case_decide; [done|].
  destruct (rec (Todo.id d) st) as [[[] st1]|] eqn:E; [| |done];
    rewrite (Hrec _ _ _ E); [done|apply IH].
Qed.

(** More fuel does not change an answer of the search. *)
Lemma dfs_mono s nd fuel fuel' cur st r :
  (fuel ≤ fuel')%nat →
  dfs fuel s nd cur st = Some r → dfs fuel' s nd cur st = Some r.
Proof.
  revert fuel' cur st r. induction fuel as [|fuel IH]; intros fuel' cur st r Hle H;
    [done|].
  destruct fuel' as [|fuel']; [lia|]. simpl in *.
  case_decide; [done|]. case_decide; [done|].
  destruct (findUnique s cur); [|done].
  eapply dfs_loop_mono; [|done]. intros c st0 r0. apply IH. lia.
Qed.

Lemma hasCircularDependencies_mono s fuel fuel' todoId newDependencyId b :
  (fuel ≤ fuel')%nat →
  hasCircularDependencies fuel s todoId newDependencyId = Some b →
  hasCircularDependencies fuel' s todoId newDependencyId = Some b.
Proof.
  unfold hasCircularDependencies. intros Hle H.
  destruct (dfs fuel s _ _ _) as [r|] eqn:E; [|done].
  by rewrite (dfs_mono _ _ _ _ _ _ _ Hle E).
Qed.

(** In a store without cycle the search never answers [true]: a todo on
    the recursion stack is an ancestor of the current one, and every todo
    that the search meets is reached from [newDependencyId]. *)
Section dfs_acyclic.
Context (s : Store) (newDependencyId : Z) (Hac : Acyclic s).

Lemma dfs_loop_acyclic fuel cur deps st stack1 b st' :
  (∀ c st b st',
     rtc (depends s) newDependencyId c → is_Some (findUnique s c) →
     (∀ y, y ∈ recursionStack st → tc (depends s) y c) →
     dfs fuel s newDependencyId c st = Some (b, st') →
     b = false ∧ recursionStack st' ⊆ recursionStack st) →
  rtc (depends s) newDependencyId cur →
  is_Some (findUnique s cur) →
  (∀ y, y ∈ stack1 → y = cur ∨ tc (depends s) y cur) →
  (∀ d, d ∈ deps → d ∈ dependencies s cur) →
  recursionStack st ⊆ stack1 →
  dfs_loop (dfs fuel s newDependencyId) newDependencyId cur deps st
  = Some (b, st') →
  b = false ∧ recursionStack st' ⊆ stack1 ∖ {[cur]}.
Proof.
  intros IH Hreach [todo Hcur] Hstack. revert st.
  induction deps as [|d deps IHd]; intros st Hdeps Hsub; simpl.
  - intros [= <- <-]. split; [done|]. simpl. set_solver.
  - assert (depends s cur (Todo.id d)) as Hd.
    { eapply depends_intro; [done|]. apply Hdeps. by left. }
    case_decide as Hnd.
    + exfalso. apply (Hac newDependencyId). rewrite Hnd in Hd.
      eapply tc_rtc_l; [done|]. by apply tc_once.
    + destruct (dfs fuel s newDependencyId (Todo.id d) st) as [[b1 st1]|] eqn:E;
        [|done].
      destruct (IH (Todo.id d) st b1 st1) as [-> Hst1]; [| | |done|].
      * eapply rtc_r; done.
      * by eapply depends_target.
      * intros y Hy. apply Hsub, Hstack in Hy as [->|Hy]; [by apply tc_once|].
        eapply tc_r; done.
      * apply IHd; [|set_solver]. intros d' Hd'. apply Hdeps. by right.
Qed.

Lemma dfs_acyclic fuel :
  ∀ c st b st',
    rtc (depends s) newDependencyId c → is_Some (findUnique s c) →
    (∀ y, y ∈ recursionStack st → tc (depends s) y c) →
    dfs fuel s newDependencyId c st = Some (b, st') →
    b = false ∧ recursionStack st' ⊆ recursionStack st.
Proof.
  induction fuel as [|fuel IH]; intros c st b st' Hreach Hc Hstack; [done|]. simpl.
  case_decide as Hin; [by apply Hstack, Hac in Hin|].
  case_decide; [by intros [= <- <-]|].
  destruct Hc as [todo Hc]. rewrite Hc. intros Hloop.
  apply (dfs_loop_acyclic fuel c _ _ ({[c]} ∪ recursionStack st)) in Hloop
    as [-> Hsub]; [split; [done|set_solver]|done..|eauto| |done|done].
  intros y Hy. apply elem_of_union in Hy as [Hy|Hy]; [left; set_solver|].
  right. by apply Hstack.
Qed.
End dfs_acyclic.

Lemma hasCircularDependencies_acyclic fuel s todoId newDependencyId b :
  Acyclic s →
  hasCircularDependencies fuel s todoId newDependencyId = Some b → b = false.
Proof.
  intros Hac. unfold hasCircularDependencies.
  destruct (dfs fuel s _ _ _) as [[b' st']|] eqn:E; [|done]. intros [= <-].
  destruct (findUnique s newDependencyId) as [todo|] eqn:Et.
  - eapply (dfs_acyclic s newDependencyId Hac); [done|eauto| |done]. set_solver.
  - destruct fuel as [|fuel]; [done|]. simpl in E.
    rewrite !decide_False in E by set_solver. rewrite Et in E. by injection E.
Qed.

(** On a store without cycle the detector answers [false], whatever edge
    it is asked about. *)
Lemma hasCircularDependencies_acyclic_false fuel s todoId newDependencyId :
  Acyclic s → (length (todos s) < fuel)%nat →
  hasCircularDependencies fuel s todoId newDependencyId = Some false.
Proof.
  intros Hac Hlt.
  destruct (hasCircularDependencies_returns fuel s todoId newDependencyId Hlt)
    as [b Hb].
  by rewrite Hb, (hasCircularDependencies_acyclic _ _ _ _ _ Hac Hb).
Qed.

(** ** The earliest-start calculator: when it returns, and what *)

Lemma calculateEarliestStart_unfold fuel s x :
  calculateEarliestStart (S fuel) s x =
  match findUnique s x with
  | None => Some None
  | Some todo =>
      match dependencies s x with
      | [] => Some (Some (Todo.createdAt todo))
      | dep :: rest =>
          d ← dependencyDate (calculateEarliestStart fuel s) dep;
          ds ← mapM (dependencyDate (calculateEarliestStart fuel s)) rest;
          Some (Some (foldl Z.max d ds))
      end
  end.
Proof. done. Qed.

(** More fuel does not change a result. *)
Lemma calculateEarliestStart_mono s fuel fuel' x r :
  (fuel ≤ fuel')%nat →
  calculateEarliestStart fuel s x = Some r →
  calculateEarliestStart fuel' s x = Some r.
Proof.
  revert fuel' x r. induction fuel as [|fuel IH]; intros fuel' x r Hle H; [done|].
  destruct fuel' as [|fuel']; [lia|]. rewrite calculateEarliestStart_unfold in *.
  destruct (findUnique s x) as [todo|]; [|done].
  destruct (dependencies s x) as [|dep rest]; [done|].
  assert (∀ d v, dependencyDate (calculateEarliestStart fuel s) d = Some v →
                 dependencyDate (calculateEarliestStart fuel' s) d = Some v) as Hd.
  { unfold dependencyDate. intros d v Hv.
    destruct (calculateEarliestStart fuel s (Todo.id d)) as [e|] eqn:E; [|done].
    rewrite (IH fuel' _ e); [done|lia|done]. }
  destruct (dependencyDate (calculateEarliestStart fuel s) dep) as [d|] eqn:E1; [|done].
  simpl in H.
  destruct (mapM (dependencyDate (calculateEarliestStart fuel s)) rest) as [ds|] eqn:E2;
    [|done].
  rewrite (Hd _ _ E1). simpl.
  assert (mapM (dependencyDate (calculateEarliestStart fuel' s)) rest = Some ds) as ->.
  { apply mapM_Some. apply mapM_Some in E2. eapply Forall2_impl; [done|]. apply Hd. }
  done.
Qed.

Lemma earliestStartIs_unique s x r r' :
  earliestStartIs s x r → earliestStartIs s x r' → r = r'.
Proof.
  intros [n Hn] [m Hm].
  apply (calculateEarliestStart_mono s n (n `max` m)) in Hn; [|lia].
  apply (calculateEarliestStart_mono s m (n `max` m)) in Hm; [|lia]. congruence.
Qed.

(** In an acyclic store the depth of the recursion is bounded by the
    number of rows. *)
Lemma calculateEarliestStart_chain s :
  Acyclic s →
  ∀ fuel p x, chain s p x → (length (todos s) < fuel + length p)%nat →
    is_Some (calculateEarliestStart fuel s x).
Proof.
  intros Hac. induction fuel as [|fuel IH]; intros p x Hp Hlt.
  { apply chain_length in Hp. lia. }
  rewrite calculateEarliestStart_unfold.
  destruct (findUnique s x) as [todo|] eqn:Ex; [|done].
  destruct (dependencies s x) as [|dep rest] eqn:Ed; [done|].
  assert (∀ d, d ∈ dep :: rest →
               is_Some (dependencyDate (calculateEarliestStart fuel s) d)) as Hd.
  { intros d Hin. rewrite <-Ed in Hin. unfold dependencyDate.
    destruct (IH (x :: p) (Todo.id d)) as [e ->]; [| simpl; lia | done].
    eapply chain_step; [done..|]. by eapply depends_intro. }
  destruct (Hd dep) as [d ->]; [by left|]. simpl.
  destruct (mapM (dependencyDate (calculateEarliestStart fuel s)) rest) as [ds|] eqn:E;
    [done|].
  assert (is_Some (mapM (dependencyDate (calculateEarliestStart fuel s)) rest)) as [? ?];
    [|congruence].
  apply mapM_is_Some, Forall_forall. intros d' Hd'. apply Hd. by right.
Qed.

Lemma calculateEarliestStart_returns s fuel x :
  Acyclic s → (length (todos s) < fuel)%nat →
  is_Some (calculateEarliestStart fuel s x).
Proof.
  intros Hac Hlt. apply (calculateEarliestStart_chain s Hac fuel [] x).
  - apply chain_nil.
  - simpl. lia.
Qed.

(** On a todo that reaches a cycle the recursion has no end. *)
Lemma calculateEarliestStart_diverges s x :
  reachesCycle s x → ∀ fuel, calculateEarliestStart fuel s x = None.
Proof.
  intros Hx fuel. revert x Hx. induction fuel as [|fuel IH]; intros x Hx; [done|].
  rewrite calculateEarliestStart_unfold.
  destruct (reachesCycle_step s x Hx) as (todo & dep & -> & Hin & Hr).
  apply IH in Hr.
  destruct (dependencies s x) as [|dep0 rest]; [by apply elem_of_nil in Hin|].
  apply elem_of_cons in Hin as [<-|Hin].
  - assert (dependencyDate (calculateEarliestStart fuel s) dep = None) as ->; [|done].
    unfold dependencyDate. by rewrite Hr.
  - assert (mapM (dependencyDate (calculateEarliestStart fuel s)) rest = None) as ->.
    { apply eq_None_not_Some. rewrite mapM_is_Some, Forall_forall. intros Hall.
      destruct (Hall dep Hin) as [v Hv]. unfold dependencyDate in Hv.
      by rewrite Hr in Hv. }
    by destruct (dependencyDate _ dep0).
Qed.

(** A store is acyclic as soon as the calculator returns on each row. *)
Lemma Acyclic_by_calculation s fuel :
  Forall (λ t, is_Some (calculateEarliestStart fuel s (Todo.id t))) (todos s) →
  Acyclic s.
Proof.
  intros Hall x Hx.
  assert (is_Some (findUnique s x)) as [t Ht].
  { inversion Hx as [? ? Hd|? ? ? Hd]; apply Hd. }
  apply findUnique_Some in Ht as [<- Hin].
  rewrite Forall_forall in Hall. destruct (Hall t Hin) as [r Hr].
  rewrite calculateEarliestStart_diverges in Hr; [done|].
  exists (Todo.id t). split; done.
Qed.

(** ** Stores that differ in the critical flags only *)

Lemma findUnique_updateMany f s i :
  (∀ t, Todo.id (f t) = Todo.id t) →
  findUnique (updateMany f s) i = f <$> findUnique s i.
Proof.
  intros Hf. unfold findUnique, updateMany. simpl.
  induction (todos s) as [|t l IH]; [done|]. simpl. rewrite Hf.
  by destruct (bool_decide (Todo.id t = i)).
Qed.

Lemma dependencies_updateMany f s i :
  (∀ t, Todo.id (f t) = Todo.id t) →
  dependencies (updateMany f s) i = f <$> dependencies s i.
Proof.
  intros Hf. unfold dependencies. change (edges (updateMany f s)) with (edges s).
  induction (edges s) as [|e l IH]; [done|]. csimpl. rewrite IH.
  case_decide; [|done]. rewrite findUnique_updateMany by done.
  by destruct (findUnique s e.2).
Qed.

Lemma dependents_updateMany f s i :
  (∀ t, Todo.id (f t) = Todo.id t) →
  dependents (updateMany f s) i = f <$> dependents s i.
Proof.
  intros Hf. unfold dependents. change (edges (updateMany f s)) with (edges s).
  induction (edges s) as [|e l IH]; [done|]. csimpl. rewrite IH.
  case_decide; [|done]. rewrite findUnique_updateMany by done.
  by destruct (findUnique s e.1).
Qed.

Section sameButCritical.
Context (s s' : Store) (Hsame : sameButCritical s s').

Local Abbreviation reset := (Todo.set_isCritical false).

Lemma same_edges : edges s = edges s'.
Proof. by injection Hsame. Qed.

Lemma same_length : length (todos s) = length (todos s').
Proof.
  injection Hsame as Ht _. apply (f_equal length) in Ht.
  by rewrite !length_map in Ht.
Qed.

Lemma same_findUnique i : reset <$> findUnique s i = reset <$> findUnique s' i.
Proof.
  rewrite <-!findUnique_updateMany by done. by rewrite Hsame.
Qed.

Lemma same_dependencies i : reset <$> dependencies s i = reset <$> dependencies s' i.
Proof.
  rewrite <-!dependencies_updateMany by done. by rewrite Hsame.
Qed.

Lemma same_dependents i : reset <$> dependents s i = reset <$> dependents s' i.
Proof.
  rewrite <-!dependents_updateMany by done. by rewrite Hsame.
Qed.

Lemma same_is_Some i : is_Some (findUnique s i) ↔ is_Some (findUnique s' i).
Proof.
  pose proof (same_findUnique i) as H.
  destruct (findUnique s i), (findUnique s' i); naive_solver.
Qed.

Lemma same_dependency_ids i :
  Todo.id <$> dependencies s i = Todo.id <$> dependencies s' i.
Proof.
  pose proof (same_dependencies i) as H.
  apply (f_equal (fmap Todo.id)) in H. by rewrite <-!list_fmap_compose in H.
Qed.

Lemma same_earliestStart i :
  Todo.earliestStart <$> findUnique s i = Todo.earliestStart <$> findUnique s' i.
Proof.
  pose proof (same_findUnique i) as H.
  apply (f_equal (fmap Todo.earliestStart)) in H.
  by rewrite <-!option_fmap_compose in H.
Qed.

Lemma same_depends x y : depends s x y ↔ depends s' x y.
Proof. unfold depends. by rewrite same_is_Some, same_dependency_ids. Qed.

Lemma same_endNodeIds : endNodeIds s = endNodeIds s'.
Proof.
  unfold endNodeIds, findMany.
  assert (∀ i, dependents s i = [] ↔ dependents s' i = []) as Hd.
  { intros i. pose proof (same_dependents i) as H.
    destruct (dependents s i), (dependents s' i); naive_solver. }
  injection Hsame as Ht _. revert Ht. generalize (todos s'). 
  induction (todos s) as [|t l IH]; intros [|t' l'] Ht; try done.
  simpl in Ht.
  assert (Todo.id t = Todo.id t' ∧ map reset l = map reset l') as [Hid Hl].
  { split; [|congruence].
    change (Todo.id (reset t) = Todo.id (reset t')). congruence. }
  rewrite !filter_cons.
  rewrite Hid. specialize (IH _ Hl).
  destruct (decide (dependents s (Todo.id t') = [])) as [Hn|Hn];
    [rewrite decide_True by (by apply Hd)|rewrite decide_False by (by rewrite <-Hd)].
  - rewrite !fmap_cons. by rewrite Hid, IH.
  - done.
Qed.
End sameButCritical.

Lemma sameButCritical_refl s : sameButCritical s s.
Proof. done. Qed.

Lemma sameButCritical_sym s s' : sameButCritical s s' → sameButCritical s' s.
Proof. done. Qed.

Lemma sameButCritical_trans s1 s2 s3 :
  sameButCritical s1 s2 → sameButCritical s2 s3 → sameButCritical s1 s3.
Proof. unfold sameButCritical. congruence. Qed.

Lemma same_Acyclic s s' : sameButCritical s s' → Acyclic s → Acyclic s'.
Proof.
  intros Hsame Hac x Hx. apply (Hac x). clear Hac.
  eapply tc_congruence with (f := λ x, x); [|done].
  intros a b. by apply same_depends.
Qed.

Lemma sameButCritical_reset s :
  sameButCritical s (updateMany (Todo.set_isCritical false) s).
Proof.
  unfold sameButCritical, updateMany. simpl. f_equal.
  rewrite <-list_fmap_compose. by apply list_fmap_ext.
Qed.

Lemma sameButCritical_update i b s s' :
  update i (Todo.set_isCritical b) s = Some s' → sameButCritical s s'.
Proof.
  unfold update. destruct (findUnique s i); [|done]. intros [= <-].
  unfold sameButCritical, updateMany. simpl. f_equal.
  rewrite map_map. apply map_ext. intros r. by case_decide.
Qed.

(** ** The critical-path marker *)

Lemma markCriticalPath_unfold fuel i s :
  markCriticalPath (S fuel) i s =
  match update i (Todo.set_isCritical true) s with
  | None => Thrown s
  | Some s' =>
      match findUnique s' i, dependencies s' i with
      | Some _, first :: rest =>
          markCriticalPath fuel
            (Todo.id (latestDependency first (first :: rest))) s'
      | _, _ => Returned () s'
      end
  end.
Proof.
  simpl. unfold bind, write, read.
  destruct (update i (Todo.set_isCritical true) s) as [s'|]; [|done].
  destruct (findUnique s' i); [|done]. by destruct (dependencies s' i).
Qed.

Lemma forEach_cons {A} (x : A) xs body s :
  forEach (x :: xs) body s =
  match body x s with
  | Returned _ s' => forEach xs body s'
  | Thrown s' => Thrown s'
  | Pending s' => Pending s'
  end.
Proof. done. Qed.

Lemma forEach_fmap {A B} (f : A → B) (body : B → Prisma unit) xs s :
  forEach xs (λ x, body (f x)) s = forEach (f <$> xs) body s.
Proof.
  revert s. induction xs as [|x xs IH]; intros s; [done|].
  rewrite fmap_cons, !forEach_cons. destruct (body (f x) s); auto.
Qed.

Lemma updateCriticalPathStatus_unfold fuel s :
  updateCriticalPathStatus fuel s =
  forEach (endNodeIds s) (markCriticalPath fuel)
    (updateMany (Todo.set_isCritical false) s).
Proof.
  unfold updateCriticalPathStatus, bind, read, modify, endNodeIds.
  by rewrite forEach_fmap.
Qed.

(** The marker writes the critical flags and nothing else. *)
Lemma markCriticalPath_same fuel i s :
  sameButCritical s (final (markCriticalPath fuel i s)).
Proof.
  revert i s. induction fuel as [|fuel IH]; intros i s; [done|].
  rewrite markCriticalPath_unfold.
  destruct (update i (Todo.set_isCritical true) s) as [s'|] eqn:E; [|done].
  apply sameButCritical_update in E.
  destruct (findUnique s' i); [|done]. destruct (dependencies s' i); [done|].
  eapply sameButCritical_trans; [done|]. apply IH.
Qed.

Lemma forEach_same {A} (body : A → Prisma unit) xs s :
  (∀ x s, sameButCritical s (final (body x s))) →
  sameButCritical s (final (forEach xs body s)).
Proof.
  intros Hb. revert s. induction xs as [|x xs IH]; intros s; [done|].
  rewrite forEach_cons. specialize (Hb x s).
  destruct (body x s) as [[] s'|s'|s']; [|done..].
  eapply sameButCritical_trans; [done|]. apply IH.
Qed.

Lemma updateCriticalPathStatus_same fuel s :
  sameButCritical s (final (updateCriticalPathStatus fuel s)).
Proof.
  rewrite updateCriticalPathStatus_unfold.
  eapply sameButCritical_trans; [apply sameButCritical_reset|].
  apply forEach_same. intros. apply markCriticalPath_same.
Qed.

(** What the recompute does is fixed by the store with its flags reset:
    the flags that it finds play no part. *)
Lemma updateCriticalPathStatus_flags fuel s s' :
  sameButCritical s s' →
  updateCriticalPathStatus fuel s = updateCriticalPathStatus fuel s'.
Proof.
  intros Hsame. rewrite !updateCriticalPathStatus_unfold.
  rewrite (same_endNodeIds s s' Hsame). by rewrite Hsame.
Qed.

Lemma latestDependency_elem first deps :
  latestDependency first deps ∈ first :: deps.
Proof.
  unfold latestDependency.
  assert (∀ l acc, (foldl (λ latest dep,
                if decide (latest.2 < completionDate dep)
                then (dep, completionDate dep) else latest) acc l).1
              ∈ acc.1 :: l) as H.
  { induction l as [|d l IH]; intros acc; simpl; [by left|].
    specialize (IH (if decide (acc.2 < completionDate d)
                    then (d, completionDate d) else acc)).
    apply elem_of_cons in IH as [->|IH].
    - case_decide; simpl; [right; left|left]; done.
    - by do 2 right. }
  apply (H deps (first, completionDate first)).
Qed.

(** In an acyclic store a backward walk ends. *)
Lemma markCriticalPath_chain s0 :
  Acyclic s0 →
  ∀ fuel p x s, sameButCritical s0 s → chain s0 p x →
    is_Some (findUnique s0 x) →
    (length (todos s0) < fuel + length p)%nat →
    ∃ s', markCriticalPath fuel x s = Returned () s'.
Proof.
  intros Hac. induction fuel as [|fuel IH]; intros p x s Hsame Hp Hx Hlt.
  { apply chain_length in Hp. lia. }
  rewrite markCriticalPath_unfold.
  destruct (update x (Todo.set_isCritical true) s) as [s'|] eqn:E.
  2:{ unfold update in E. apply (same_is_Some _ _ Hsame) in Hx as [? Hx].
      by rewrite Hx in E. }
  apply sameButCritical_update in E.
  assert (sameButCritical s0 s') as Hsame' by (by eapply sameButCritical_trans).
  destruct (findUnique s' x) as [todo|] eqn:Ex; [|by eexists].
  destruct (dependencies s' x) as [|first rest] eqn:Ed; [by eexists|].
  assert (depends s0 x (Todo.id (latestDependency first (first :: rest)))) as Hd.
  { apply (same_depends _ _ Hsame'). eapply depends_intro; [done|].
    rewrite Ed. pose proof (latestDependency_elem first (first :: rest)) as Hl.
    apply elem_of_cons in Hl as [->|Hl]; [by left|done]. }
  apply (IH (x :: p)); [done| |by eapply depends_target|simpl; lia].
  by eapply chain_step.
Qed.

Lemma endNodeIds_exist s x : x ∈ endNodeIds s → is_Some (findUnique s x).
Proof.
  unfold endNodeIds, findMany. intros Hx.
  apply list_elem_of_fmap in Hx as (t & -> & Ht).
  apply list_elem_of_filter in Ht as [_ Ht].
  apply findUnique_is_Some. unfold ids. apply elem_of_list_to_set.
  apply list_elem_of_fmap. eauto.
Qed.

Lemma forEach_markCriticalPath_returns s0 fuel :
  Acyclic s0 → (length (todos s0) < fuel)%nat →
  ∀ xs s, sameButCritical s0 s → (∀ x, x ∈ xs → is_Some (findUnique s0 x)) →
    ∃ s', forEach xs (markCriticalPath fuel) s = Returned () s'.
Proof.
  intros Hac Hlt. induction xs as [|x xs IH]; intros s Hsame Hxs; [by eexists|].
  rewrite forEach_cons.
  destruct (markCriticalPath_chain s0 Hac fuel [] x s) as [s1 Hs1];
    [done|apply chain_nil|apply Hxs; by left|simpl; lia|].
  pose proof (markCriticalPath_same fuel x s) as Hs. rewrite Hs1 in *. simpl in Hs.
  apply IH; [by eapply sameButCritical_trans|]. intros y Hy. apply Hxs. by right.
Qed.

(** In an acyclic store the recompute returns, for any fuel above the
    number of rows. *)
Lemma updateCriticalPathStatus_returns s fuel :
  Acyclic s → (length (todos s) < fuel)%nat →
  ∃ s', updateCriticalPathStatus fuel s = Returned () s'.
Proof.
  intros Hac Hlt. rewrite updateCriticalPathStatus_unfold.
  apply (forEach_markCriticalPath_returns s fuel Hac Hlt).
  - apply sameButCritical_reset.
  - apply endNodeIds_exist.
Qed.

(** Marking a todo that is marked already changes nothing. *)
Lemma update_isCritical_twice i s s' :
  update i (Todo.set_isCritical true) s = Some s' →
  update i (Todo.set_isCritical true) s' = Some s'.
Proof.
  intros H. pose proof (sameButCritical_update _ _ _ _ H) as Hsame.
  unfold update in *. destruct (findUnique s i) as [t|] eqn:E; [|done].
  destruct (same_is_Some _ _ Hsame i) as [[t' ->] _]; [eauto|].
  injection H as <-. simpl. do 2 f_equal.
  rewrite map_map. apply map_ext. intros r.
  destruct (decide (Todo.id r = i)) as [Hr|Hr]; simpl.
  - by rewrite decide_True.
  - by rewrite decide_False.
Qed.

(** ** The handlers *)

Lemma POST_unfold fuel id dependencyIds s :
  POST fuel id dependencyIds s =
  match findUnique s id with
  | None => Returned TodoNotFound s
  | Some _ =>
      match checkDependencies fuel id dependencyIds s with
      | Returned (Some response) s0 => Returned response s0
      | Returned None s0 =>
          match connect id dependencyIds s0 with
          | None => Returned ErrorAddingDependencies s0
          | Some s1 =>
              match calculateEarliestStart fuel s1 id with
              | None => Pending s1
              | Some newEarliestStart =>
                  match update id (Todo.set_earliestStart newEarliestStart) s1 with
                  | None => Returned ErrorAddingDependencies s1
                  | Some s2 =>
                      match updateCriticalPathStatus fuel s2 with
                      | Returned _ s3 => Returned DependenciesAdded s3
                      | Thrown s3 => Returned ErrorAddingDependencies s3
                      | Pending s3 => Pending s3
                      end
                  end
              end
          end
      | Thrown s0 => Returned ErrorAddingDependencies s0
      | Pending s0 => Pending s0
      end
  end.
Proof.
  unfold POST, try_catch, bind, read, readRec, write, ret.
  destruct (findUnique s id); [|done].
  destruct (checkDependencies fuel id dependencyIds s) as [[r|] s0|s0|s0]; try done.
  destruct (connect id dependencyIds s0) as [s1|]; [|done].
  destruct (calculateEarliestStart fuel s1 id) as [e|]; [|done].
  destruct (update id (Todo.set_earliestStart e) s1) as [s2|]; [|done].
  by destruct (updateCriticalPathStatus fuel s2).
Qed.

Lemma DELETE_unfold fuel id dependencyIds s :
  DELETE fuel id dependencyIds s =
  match disconnect id dependencyIds s with
  | None => Returned ErrorRemovingDependencies s
  | Some s1 =>
      match calculateEarliestStart fuel s1 id with
      | None => Pending s1
      | Some newEarliestStart =>
          match update id (Todo.set_earliestStart newEarliestStart) s1 with
          | None => Returned ErrorRemovingDependencies s1
          | Some s2 =>
              match updateCriticalPathStatus fuel s2 with
              | Returned _ s3 => Returned DependenciesRemoved s3
              | Thrown s3 => Returned ErrorRemovingDependencies s3
              | Pending s3 => Pending s3
              end
          end
      end
  end.
Proof.
  unfold DELETE, try_catch, bind, read, readRec, write, ret.
  destruct (disconnect id dependencyIds s) as [s1|]; [|done].
  destruct (calculateEarliestStart fuel s1 id) as [e|]; [|done].
  destruct (update id (Todo.set_earliestStart e) s1) as [s2|]; [|done].
  by destruct (updateCriticalPathStatus fuel s2).
Qed.

Lemma checkDependencies_cons fuel id depId rest s :
  checkDependencies fuel id (depId :: rest) s =
  if decide (depId = id) then Returned (Some CannotAddSelf) s
  else match hasCircularDependencies fuel s id depId with
       | None => Pending s
       | Some true => Returned (Some (WouldCreateCircular depId)) s
       | Some false => checkDependencies fuel id rest s
       end.
Proof.
  simpl. case_decide; [done|]. unfold bind, readRec.
  by destruct (hasCircularDependencies fuel s id depId) as [[]|].
Qed.

(** The loop passes a list of candidates none of which fails. *)
Lemma checkDependencies_pass fuel id dependencyIds s :
  (length (todos s) < fuel)%nat →
  Forall (λ c, ¬ candidateFails fuel s id c) dependencyIds →
  checkDependencies fuel id dependencyIds s = Returned None s.
Proof.
  intros Hlt. induction 1 as [|c l Hc _ IH]; [done|].
  rewrite checkDependencies_cons. unfold candidateFails in Hc.
  rewrite decide_False by tauto.
  destruct (hasCircularDependencies_returns fuel s id c Hlt) as [[] Hb];
    rewrite Hb in *; [tauto|done].
Qed.

(** The loop returns the rejection of the first candidate that fails. *)
Lemma checkDependencies_reject fuel id pre c post s :
  (length (todos s) < fuel)%nat →
  Forall (λ c, ¬ candidateFails fuel s id c) pre →
  candidateFails fuel s id c →
  checkDependencies fuel id (pre ++ c :: post) s
  = Returned (Some (rejection id c)) s.
Proof.
  intros Hlt Hpre Hc. induction Hpre as [|x l Hx _ IH]; simpl app.
  - rewrite checkDependencies_cons. unfold rejection.
    destruct (decide (c = id)); [done|]. destruct Hc as [?|Hc]; [done|].
    by rewrite Hc.
  - rewrite checkDependencies_cons. unfold candidateFails in Hx.
    rewrite decide_False by tauto.
    destruct (hasCircularDependencies_returns fuel s id x Hlt) as [[] Hb];
      rewrite Hb in *; [tauto|done].
Qed.

Lemma first_failure fuel s id dependencyIds :
  Exists (candidateFails fuel s id) dependencyIds →
  ∃ pre c post, dependencyIds = pre ++ c :: post
    ∧ Forall (λ c, ¬ candidateFails fuel s id c) pre
    ∧ candidateFails fuel s id c.
Proof.
  induction dependencyIds as [|x l IH]; intros H; [by apply Exists_nil in H|].
  destruct (decide (candidateFails fuel s id x)) as [Hx|Hx].
  - by exists [], x, l.
  - apply Exists_cons in H as [?|H]; [done|].
    destruct (IH H) as (pre & c & post & -> & Hpre & Hc).
    exists (x :: pre), c, post. split; [done|]. split; [by constructor|done].
Qed.

(** The detector answers [true] on rows of the store only. *)
Lemma hasCircularDependencies_true_exists fuel s id c :
  hasCircularDependencies fuel s id c = Some true → is_Some (findUnique s c).
Proof.
  unfold hasCircularDependencies. destruct fuel as [|fuel]; [done|]. simpl.
  rewrite decide_False by set_solver. rewrite decide_False by set_solver.
  destruct (findUnique s c); [eauto|done].
Qed.

(** ** Claims on the earliest-start calculator *)

Lemma foldl_max_init d ds : d ≤ foldl Z.max d ds.
Proof.
  revert d. induction ds as [|y ds IH]; intros d; simpl; [done|].
  transitivity (d `max` y); [lia|apply IH].
Qed.

Lemma foldl_max_ge d ds x : x ∈ d :: ds → x ≤ foldl Z.max d ds.
Proof.
  revert d. induction ds as [|y ds IH]; intros d Hx.
  - apply list_elem_of_singleton in Hx as ->. done.
  - apply elem_of_cons in Hx as [->|Hx]; [apply foldl_max_init|]. simpl.
    apply elem_of_cons in Hx as [->|Hx].
    + transitivity (d `max` y); [lia|apply foldl_max_init].
    + apply IH. by right.
Qed.

Lemma foldl_max_elem d ds : foldl Z.max d ds ∈ d :: ds.
Proof.
  revert d. induction ds as [|y ds IH]; intros d; simpl; [by left|].
  specialize (IH (d `max` y)). apply elem_of_cons in IH as [->|IH].
  - destruct (Z.max_spec d y) as [[_ ->]|[_ ->]]; [right|]; by left.
  - by do 2 right.
Qed.

Lemma dependencyDate_Some rec dep v :
  dependencyDate rec dep = Some v ↔
  ∃ e, rec (Todo.id dep) = Some e ∧ v = firstDate e dep.
Proof.
  unfold dependencyDate. destruct (rec (Todo.id dep)) as [e|]; simpl.
  - split; [intros [= <-]; eauto|intros (? & [= <-] & ->); done].
  - split; [done|intros (? & ? & _); done].
Qed.

(** What a call on a todo with dependencies returns, when it returns: the
    latest of the dates that its dependencies contribute. *)
Lemma calculateEarliestStart_latest fuel s x todo r :
  findUnique s x = Some todo → dependencies s x ≠ [] →
  calculateEarliestStart (S fuel) s x = Some r →
  ∃ m, r = Some m
    ∧ (∀ dep, dep ∈ dependencies s x →
        ∃ e, calculateEarliestStart fuel s (Todo.id dep) = Some e
             ∧ firstDate e dep ≤ m)
    ∧ (∃ dep e, dep ∈ dependencies s x
        ∧ calculateEarliestStart fuel s (Todo.id dep) = Some e
        ∧ firstDate e dep = m).
Proof.
  intros Hx Hne. rewrite calculateEarliestStart_unfold, Hx.
  destruct (dependencies s x) as [|dep0 rest]; [done|].
  destruct (dependencyDate _ dep0) as [d|] eqn:E0; [|done]. simpl.
  destruct (mapM _ rest) as [ds|] eqn:E; [|done]. simpl. intros [= <-].
  apply dependencyDate_Some in E0 as (e0 & He0 & ->).
  apply mapM_Some in E.
  exists (foldl Z.max (firstDate e0 dep0) ds). split; [done|]. split.
  - intros dep Hin. apply elem_of_cons in Hin as [->|Hin].
    + exists e0. split; [done|]. apply foldl_max_ge. by left.
    + apply list_elem_of_lookup in Hin as [i Hi].
      destruct (Forall2_lookup_l _ _ _ _ _ E Hi) as (v & Hv & Hd).
      apply dependencyDate_Some in Hd as (e & He & ->).
      exists e. split; [done|]. apply foldl_max_ge. right.
      apply list_elem_of_lookup. eauto.
  - pose proof (foldl_max_elem (firstDate e0 dep0) ds) as Hm.
    apply elem_of_cons in Hm as [Hm|Hm].
    + exists dep0, e0. split; [by left|]. split; [done|congruence].
    + apply list_elem_of_lookup in Hm as [i Hi].
      destruct (Forall2_lookup_r _ _ _ _ _ E Hi) as (dep & Hdep & Hd).
      apply dependencyDate_Some in Hd as (e & He & Hv).
      exists dep, e. split; [|done]. right. apply list_elem_of_lookup. eauto.
Qed.

(** C8. For every existing todo without dependencies,
    [calculateEarliestStart] returns the creation date of that todo, a
    date and not [null], at its first call. *)
Theorem earliestStart_without_dependencies fuel s todoId todo :
  findUnique s todoId = Some todo →
  dependencies s todoId = [] →
  calculateEarliestStart (S fuel) s todoId = Some (Some (Todo.createdAt todo)).
Proof. intros Hx Hd. by rewrite calculateEarliestStart_unfold, Hx, Hd. Qed.

Lemma earliestStart_without_dependencies_witness :
  calculateEarliestStart 1 (scenarioEnd (day 2) (day 3)) 1 = Some (Some (day 1)).
Proof.
  apply (earliestStart_without_dependencies 0 (scenarioEnd (day 2) (day 3)) 1
           (Todo.mk 1 "A" None None None (day 1) None true)); reflexivity.
Defined.

(** C4. For every todo with at least one dependency, whenever
    [calculateEarliestStart] returns, it returns a date [m] that is at
    least the date contributed by each dependency (its own computed
    earliest start, or if that is [null] its due date, or if that is
    [null] its creation date), never less, and that is the date
    contributed by one of them: their maximum. In a store without
    dependency cycle the call does return. *)
Theorem earliestStart_with_dependencies s todoId todo :
  findUnique s todoId = Some todo →
  dependencies s todoId ≠ [] →
  (∀ r, earliestStartIs s todoId r →
     ∃ m, r = Some m
       ∧ (∀ dep, dep ∈ dependencies s todoId →
           ∃ e, earliestStartIs s (Todo.id dep) e ∧ firstDate e dep ≤ m)
       ∧ (∃ dep e, dep ∈ dependencies s todoId
           ∧ earliestStartIs s (Todo.id dep) e ∧ firstDate e dep = m))
  ∧ (Acyclic s → ∃ m, earliestStartIs s todoId (Some m)).
Proof.
  intros Hx Hne.
  assert (∀ r, earliestStartIs s todoId r →
     ∃ m, r = Some m
       ∧ (∀ dep, dep ∈ dependencies s todoId →
           ∃ e, earliestStartIs s (Todo.id dep) e ∧ firstDate e dep ≤ m)
       ∧ (∃ dep e, dep ∈ dependencies s todoId
           ∧ earliestStartIs s (Todo.id dep) e ∧ firstDate e dep = m)) as Hmax.
  { intros r [[|fuel] Hr]; [done|].
    destruct (calculateEarliestStart_latest _ _ _ _ _ Hx Hne Hr)
      as (m & -> & Hge & dep & e & Hin & He & Hm).
    exists m. split; [done|]. split.
    - intros d Hd. destruct (Hge d Hd) as (e' & He' & Hle).
      exists e'. split; [by eexists|done].
    - exists dep, e. split; [done|]. split; [by eexists|done]. }
  split; [done|]. intros Hac.
  destruct (calculateEarliestStart_returns s (S (length (todos s))) todoId Hac)
    as [r Hr]; [lia|].
  destruct (Hmax r) as (m & -> & _); [by eexists|]. exists m. by eexists.
Qed.

Lemma scenarioEnd_acyclic b c : Acyclic (scenarioEnd b c).
Proof. apply (Acyclic_by_calculation _ 3). repeat constructor; by eexists. Qed.

Lemma earliestStart_with_dependencies_witness :
  ∃ m, earliestStartIs (scenarioEnd (day 2) (day 3)) 3 (Some m)
    ∧ ∀ dep, dep ∈ dependencies (scenarioEnd (day 2) (day 3)) 3 →
        ∃ e, earliestStartIs (scenarioEnd (day 2) (day 3)) (Todo.id dep) e
             ∧ firstDate e dep ≤ m.
Proof.
  destruct (earliestStart_with_dependencies (scenarioEnd (day 2) (day 3)) 3
              (Todo.mk 3 "C" None None None (day 3) (Some (day 2)) true))
    as [Hmax Hret].
  - reflexivity.
  - vm_compute. discriminate.
  - destruct (Hret (scenarioEnd_acyclic (day 2) (day 3))) as [m Hm].
    exists m. split; [exact Hm|].
    destruct (Hmax _ Hm) as (m' & Heq & Hge & _).
    injection Heq as <-. exact Hge.
Defined.

Lemma cyclicStore_cycle : tc (depends cyclicStore) 1 1.
Proof.
  apply tc_l with 2; [|apply tc_once]; (split; [by eexists|]); vm_compute;
    repeat constructor.
Qed.

Lemma cyclicStore_reachesCycle : reachesCycle cyclicStore 1.
Proof. exists 1. split; [done|apply cyclicStore_cycle]. Qed.

(** C3. The claim fails on the store in which todos 1 and 2 depend on each
    other: [calculateEarliestStart] on todo 1 returns neither a date nor an
    error there, however many nested calls it is given. *)
Lemma earliestStart_hangs_on_cycle :
  ¬ ∃ fuel r, calculateEarliestStart fuel cyclicStore 1 = Some r.
Proof.
  intros (fuel & r & H).
  by rewrite (calculateEarliestStart_diverges _ _ cyclicStore_reachesCycle) in H.
Qed.

(** C3, amended. [calculateEarliestStart] has no guard against cycles. In
    a store without dependency cycle it returns on every todo, within a
    depth of recursion of at most the number of rows plus one; on a todo
    from which a dependency cycle can be reached it never returns, and it
    has no error to raise. *)
Theorem earliestStart_termination s x :
  (Acyclic s → ∀ fuel, (length (todos s) < fuel)%nat →
     is_Some (calculateEarliestStart fuel s x))
  ∧ (reachesCycle s x → ∀ fuel, calculateEarliestStart fuel s x = None).
Proof.
  split.
  - intros Hac fuel Hlt. by apply calculateEarliestStart_returns.
  - apply calculateEarliestStart_diverges.
Qed.

Lemma earliestStart_termination_witness :
  is_Some (calculateEarliestStart 4 (scenarioEnd (day 2) (day 3)) 3)
  ∧ ∀ fuel, calculateEarliestStart fuel cyclicStore 1 = None.
Proof.
  split.
  - apply (earliestStart_termination (scenarioEnd (day 2) (day 3)) 3).
    + apply scenarioEnd_acyclic.
    + simpl. lia.
  - apply (earliestStart_termination cyclicStore 1), cyclicStore_reachesCycle.
Defined.

(** ** Claims on the critical-path marker *)

Lemma markCriticalPath_mono fuel fuel' i s s' :
  (fuel ≤ fuel')%nat →
  markCriticalPath fuel i s = Returned () s' →
  markCriticalPath fuel' i s = Returned () s'.
Proof.
  revert fuel' i s. induction fuel as [|fuel IH]; intros fuel' i s Hle H; [done|].
  destruct fuel' as [|fuel']; [lia|]. rewrite markCriticalPath_unfold in *.
  destruct (update i (Todo.set_isCritical true) s) as [s1|]; [|done].
  destruct (findUnique s1 i); [|done]. destruct (dependencies s1 i); [done|].
  apply IH; [lia|done].
Qed.

Lemma forEach_markCriticalPath_mono fuel fuel' xs s s' :
  (fuel ≤ fuel')%nat →
  forEach xs (markCriticalPath fuel) s = Returned () s' →
  forEach xs (markCriticalPath fuel') s = Returned () s'.
Proof.
  intros Hle. revert s. induction xs as [|x xs IH]; intros s H; [done|].
  rewrite forEach_cons in *.
  destruct (markCriticalPath fuel x s) as [[] s1|s1|s1] eqn:E; [|done..].
  rewrite (markCriticalPath_mono _ _ _ _ _ Hle E). by apply IH.
Qed.

Lemma updateCriticalPathStatus_mono fuel fuel' s s' :
  (fuel ≤ fuel')%nat →
  updateCriticalPathStatus fuel s = Returned () s' →
  updateCriticalPathStatus fuel' s = Returned () s'.
Proof.
  rewrite !updateCriticalPathStatus_unfold. apply forEach_markCriticalPath_mono.
Qed.

(** C9. Whenever [updateCriticalPathStatus] returns, running it again on
    the store that it left, with no edit in between, returns and leaves
    the same store, so the same critical flags; in a store without
    dependency cycle it does return; and marking a todo that an earlier
    walk has marked already leaves the store as it is. *)
Theorem recompute_idempotent s :
  (∀ fuel fuel' s1, updateCriticalPathStatus fuel s = Returned () s1 →
     (fuel ≤ fuel')%nat →
     updateCriticalPathStatus fuel' s1 = Returned () s1)
  ∧ (Acyclic s → ∀ fuel, (length (todos s) < fuel)%nat →
       ∃ s1, updateCriticalPathStatus fuel s = Returned () s1)
  ∧ (∀ i s1, update i (Todo.set_isCritical true) s = Some s1 →
       update i (Todo.set_isCritical true) s1 = Some s1).
Proof.
  split; [|split].
  - intros fuel fuel' s1 H Hle.
    pose proof (updateCriticalPathStatus_same fuel s) as Hsame.
    rewrite H in Hsame. simpl in Hsame.
    rewrite <-(updateCriticalPathStatus_flags fuel' s s1 Hsame).
    by apply (updateCriticalPathStatus_mono fuel).
  - intros Hac fuel Hlt. by apply updateCriticalPathStatus_returns.
  - intros i s1. apply update_isCritical_twice.
Qed.

Lemma recompute_idempotent_witness :
  updateCriticalPathStatus 5 (scenarioEnd (day 2) (day 3))
  = Returned () (scenarioEnd (day 2) (day 3))
  ∧ (∃ s1, updateCriticalPathStatus 4 (scenarioEnd (day 2) (day 3))
           = Returned () s1)
  ∧ update 1 (Todo.set_isCritical true) (scenarioEnd (day 2) (day 3))
    = Some (scenarioEnd (day 2) (day 3)).
Proof.
  destruct (recompute_idempotent (scenarioEnd (day 2) (day 3))) as (H1 & H2 & H3).
  split; [|split].
  - apply (H1 3%nat); [reflexivity|lia].
  - apply H2; [apply scenarioEnd_acyclic|simpl; lia].
  - apply H3. reflexivity.
Defined.

(** ** What the handlers leave in the store *)

Lemma checkDependencies_reads fuel id dependencyIds s :
  match checkDependencies fuel id dependencyIds s with
  | Returned r s' =>
      s' = s ∧ (r = None ∨ r = Some CannotAddSelf
                ∨ ∃ c, r = Some (WouldCreateCircular c))
  | Thrown _ => False
  | Pending s' => s' = s
  end.
Proof.
  induction dependencyIds as [|c l IH]; [simpl; auto|].
  rewrite checkDependencies_cons. case_decide; [auto|].
  destruct (hasCircularDependencies fuel s id c) as [[]|]; eauto.
Qed.

Lemma connect_todos i dependencyIds s s' :
  connect i dependencyIds s = Some s' → todos s' = todos s.
Proof.
  unfold connect. destruct (findUnique s i); [|done].
  destruct (forallb _ _); [|done]. by intros [= <-].
Qed.

Lemma disconnect_todos i dependencyIds s s' :
  disconnect i dependencyIds s = Some s' → todos s' = todos s.
Proof. unfold disconnect. destruct (findUnique s i); [|done]. by intros [= <-]. Qed.

Lemma findUnique_todos s s' i : todos s' = todos s → findUnique s' i = findUnique s i.
Proof. unfold findUnique. by intros ->. Qed.

Lemma findUnique_update_ne i f s s' j :
  (∀ t, Todo.id (f t) = Todo.id t) →
  update i f s = Some s' → j ≠ i → findUnique s' j = findUnique s j.
Proof.
  intros Hf. unfold update. destruct (findUnique s i); [|done]. intros [= <-] Hne.
  unfold findUnique. simpl. induction (todos s) as [|r l IH]; [done|]. simpl.
  destruct (decide (Todo.id r = i)) as [Hr|Hr]; [|by rewrite IH].
  rewrite Hf, IH. by rewrite !bool_decide_eq_false_2 by congruence.
Qed.

Lemma update_is_Some i f s : is_Some (update i f s) ↔ is_Some (findUnique s i).
Proof. unfold update. destruct (findUnique s i); split; intros [? ?]; eauto; done. Qed.

(** The marker does not throw on a todo of the store, and so the
    recompute never throws. *)
Lemma markCriticalPath_no_throw fuel i s s' :
  is_Some (findUnique s i) → markCriticalPath fuel i s ≠ Thrown s'.
Proof.
  revert i s. induction fuel as [|fuel IH]; intros i s Hi; [done|].
  rewrite markCriticalPath_unfold.
  destruct (update i (Todo.set_isCritical true) s) as [s1|] eqn:E.
  2:{ apply (update_is_Some i (Todo.set_isCritical true)) in Hi as [? Hi].
      congruence. }
  destruct (findUnique s1 i); [|done].
  destruct (dependencies s1 i) as [|first rest] eqn:Ed; [done|].
  apply IH. pose proof (latestDependency_elem first (first :: rest)) as Hl.
  assert (latestDependency first (first :: rest) ∈ dependencies s1 i) as Hin.
  { rewrite Ed. apply elem_of_cons in Hl as [->|Hl]; [by left|done]. }
  apply dependencies_elem in Hin as [_ Hin]. eauto.
Qed.

Lemma updateCriticalPathStatus_no_throw fuel s s' :
  updateCriticalPathStatus fuel s ≠ Thrown s'.
Proof.
  rewrite updateCriticalPathStatus_unfold.
  assert (∀ xs s1, sameButCritical s s1 →
            (∀ x, x ∈ xs → is_Some (findUnique s x)) →
            forEach xs (markCriticalPath fuel) s1 ≠ Thrown s') as H.
  { induction xs as [|x xs IH]; intros s1 Hsame Hxs; [done|].
    rewrite forEach_cons.
    pose proof (markCriticalPath_same fuel x s1) as Hs.
    destruct (markCriticalPath fuel x s1) as [[] s2|s2|s2] eqn:E; [| |done].
    - apply IH; [by eapply sameButCritical_trans|]. intros y Hy. apply Hxs. by right.
    - exfalso. apply (markCriticalPath_no_throw fuel x s1 s2); [|done].
      apply (same_is_Some _ _ Hsame), Hxs. by left. }
  apply H; [apply sameButCritical_reset|apply endNodeIds_exist].
Qed.

Lemma POST_rejected fuel id dependencyIds s r :
  is_Some (findUnique s id) →
  checkDependencies fuel id dependencyIds s = Returned (Some r) s →
  POST fuel id dependencyIds s = Returned r s.
Proof. intros [todo Ht] Hc. by rewrite POST_unfold, Ht, Hc. Qed.

(** An answer of [POST] other than success leaves the whole store as it
    was. *)
Lemma POST_failure_atomic fuel id dependencyIds s r s' :
  POST fuel id dependencyIds s = Returned r s' → r ≠ DependenciesAdded → s' = s.
Proof.
  rewrite POST_unfold. destruct (findUnique s id) as [todo|] eqn:Et; [|congruence].
  pose proof (checkDependencies_reads fuel id dependencyIds s) as Hc.
  destruct (checkDependencies fuel id dependencyIds s) as [[r0|] s0|s0|s0];
    [naive_solver| |done..].
  destruct Hc as [-> _].
  destruct (connect id dependencyIds s) as [s1|] eqn:Ec; [|congruence].
  destruct (calculateEarliestStart fuel s1 id) as [e|]; [|done].
  destruct (update id (Todo.set_earliestStart e) s1) as [s2|] eqn:Eu.
  - pose proof (updateCriticalPathStatus_no_throw fuel s2) as Hn.
    destruct (updateCriticalPathStatus fuel s2) as [[] s3|s3|s3];
      [congruence|by destruct (Hn s3)|done].
  - apply eq_None_not_Some in Eu. destruct Eu. apply update_is_Some.
    rewrite (findUnique_todos s s1); [eauto|]. by eapply connect_todos.
Qed.

(** C5. A request on an existing todo whose list holds a candidate that
    fails its check (it is the todo itself, or the cycle detector answers
    [true] on it) is answered with the rejection of the first such
    candidate, which tells self-reference ('Cannot add self as
    dependency') from cycle ('Adding dependency c would create a circular
    dependency') and names the candidate, and the store, hence its edge
    set, is exactly as before; more generally every answer of [POST]
    other than success leaves the store as it was. *)
Theorem add_rejection_atomic fuel s id dependencyIds :
  (∀ r s', POST fuel id dependencyIds s = Returned r s' →
     r ≠ DependenciesAdded → s' = s)
  ∧ ((length (todos s) < fuel)%nat →
     is_Some (findUnique s id) →
     Exists (candidateFails fuel s id) dependencyIds →
     ∃ pre c post, dependencyIds = pre ++ c :: post
       ∧ Forall (λ c, ¬ candidateFails fuel s id c) pre
       ∧ candidateFails fuel s id c
       ∧ POST fuel id dependencyIds s = Returned (rejection id c) s).
Proof.
  split; [intros r s'; apply POST_failure_atomic|].
  intros Hlt Hid Hex.
  destruct (first_failure _ _ _ _ Hex) as (pre & c & post & -> & Hpre & Hc).
  exists pre, c, post. repeat split; [done..|].
  apply POST_rejected; [done|]. by apply checkDependencies_reject.
Qed.

Lemma add_rejection_atomic_witness :
  POST 4 3 [2; 1; 3] threeCyclic = Returned (WouldCreateCircular 2) threeCyclic.
Proof.
  destruct (add_rejection_atomic 4 threeCyclic 3 [2; 1; 3]) as [_ H].
  destruct H as (pre & c & post & Heq & Hpre & Hc & HP).
  - simpl. lia.
  - by eexists.
  - apply Exists_cons_hd. right. reflexivity.
  - destruct pre as [|x pre]; injection Heq as <- Heq; [exact HP|].
    exfalso. apply Forall_cons_1 in Hpre as [Hx _]. apply Hx. right. reflexivity.
Defined.

(** C6. The claim fails on a store with todos 1 and 2 and a request to
    make todo 1 depend on a todo 7 that does not exist: the answer is the
    catch-all 'Error adding dependencies' of status 500, which names no
    identifier. *)
Lemma add_missing_dependency_is_generic_error :
  findUnique twoTodos 7 = None
  ∧ POST 3 1 [7] twoTodos = Returned ErrorAddingDependencies twoTodos.
Proof. split; reflexivity. Qed.

Lemma connect_missing i dependencyIds s missing :
  missing ∈ dependencyIds → findUnique s missing = None →
  connect i dependencyIds s = None.
Proof.
  intros Hin Hm. unfold connect. destruct (findUnique s i); [|done].
  destruct (forallb _ _) eqn:E; [|done]. rewrite forallb_forall in E.
  apply list_elem_of_In, E, bool_decide_eq_true in Hin as [? Hin]. congruence.
Qed.

(** C6, amended. A request on an existing todo whose list holds an
    identifier that is not in the store is not validated against the
    store by the handler. It fails and commits nothing, and no answer
    names the missing identifier: when no candidate fails its check, the
    foreign key makes [connect] throw and the answer is the catch-all
    'Error adding dependencies'; otherwise the answer is the rejection, as
    self-reference or as cycle, of a candidate that is in the store. *)
Theorem add_missing_dependency fuel s id dependencyIds missing :
  (length (todos s) < fuel)%nat →
  is_Some (findUnique s id) →
  missing ∈ dependencyIds →
  findUnique s missing = None →
  ∃ r, POST fuel id dependencyIds s = Returned r s
    ∧ (r = ErrorAddingDependencies
       ∨ ∃ c, r = rejection id c ∧ c ∈ dependencyIds ∧ is_Some (findUnique s c))
    ∧ (Forall (λ c, ¬ candidateFails fuel s id c) dependencyIds →
       r = ErrorAddingDependencies).
Proof.
  intros Hlt Hid Hin Hm.
  destruct (decide (Exists (candidateFails fuel s id) dependencyIds)) as [Hex|Hall].
  - destruct (first_failure _ _ _ _ Hex) as (pre & c & post & -> & Hpre & Hc).
    exists (rejection id c). split; [|split].
    + apply POST_rejected; [done|]. by apply checkDependencies_reject.
    + right. exists c. split; [done|]. split; [set_solver|].
      destruct Hc as [->|Hc]; [done|]. by eapply hasCircularDependencies_true_exists.
    + intros Hf. apply Forall_app in Hf as [_ Hf].
      apply Forall_cons_1 in Hf as [Hf _]. done.
  - apply not_Exists_Forall in Hall; [|intros c; apply _].
    exists ErrorAddingDependencies. split; [|auto].
    destruct Hid as [todo Ht]. rewrite POST_unfold, Ht.
    rewrite checkDependencies_pass by done.
    by rewrite (connect_missing _ _ _ missing).
Qed.

Lemma add_missing_dependency_witness :
  ∃ r, POST 3 1 [7] twoTodos = Returned r twoTodos
    ∧ (r = ErrorAddingDependencies
       ∨ ∃ c, r = rejection 1 c ∧ c ∈ [7] ∧ is_Some (findUnique twoTodos c))
    ∧ (Forall (λ c, ¬ candidateFails 3 twoTodos 1 c) [7] →
       r = ErrorAddingDependencies).
Proof.
  apply (add_missing_dependency 3 twoTodos 1 [7] 7).
  - simpl. lia.
  - by eexists.
  - by left.
  - reflexivity.
Defined.

(** C7. The claim fails on the store that the requests "1 depends on 2"
    and then "2 depends on 1" leave: the request to make todo 3 depend on
    1 and on 3 itself is rejected as a cycle through candidate 1, which
    the loop meets first, and not as a self-reference. *)
Lemma self_reference_after_cyclic_candidate :
  threeCyclic
  = final (POST 4 2 [1] (final (POST 4 1 [2] (scenarioStart (day 2) (day 3)))))
  ∧ POST 4 3 [1; 3] threeCyclic = Returned (WouldCreateCircular 1) threeCyclic
  ∧ WouldCreateCircular 1 ≠ CannotAddSelf.
Proof. split; [reflexivity|]. split; [reflexivity|discriminate]. Qed.

(** C7, amended. For an existing todo [t] and a list that contains [t], the
    request is rejected and the store is left as it was. The candidates
    are checked in the order of the list, each first for equality with
    [t] and only then by the cycle detector: the answer is 'Cannot add
    self as dependency' when the detector answers [false] on every
    candidate listed before the first occurrence of [t], and in
    particular, without any search and whatever the graph, when [t] comes
    first; otherwise it is the cycle rejection of such an earlier
    candidate. On a store without cycle the answer is always 'Cannot add
    self as dependency'. *)
Theorem self_dependency_rejected fuel s t dependencyIds :
  is_Some (findUnique s t) →
  (∀ rest, POST fuel t (t :: rest) s = Returned CannotAddSelf s)
  ∧ ((length (todos s) < fuel)%nat → t ∈ dependencyIds →
     ∃ pre post, dependencyIds = pre ++ t :: post ∧ (t ∉ pre)
       ∧ ((Forall (λ c, hasCircularDependencies fuel s t c = Some false) pre
           ∧ POST fuel t dependencyIds s = Returned CannotAddSelf s)
          ∨ (∃ c, c ∈ pre
               ∧ hasCircularDependencies fuel s t c = Some true
               ∧ POST fuel t dependencyIds s
                 = Returned (WouldCreateCircular c) s)))
  ∧ (Acyclic s → (length (todos s) < fuel)%nat → t ∈ dependencyIds →
     POST fuel t dependencyIds s = Returned CannotAddSelf s).
Proof.
  intros Ht. split; [|split].
  - intros rest. apply POST_rejected; [done|].
    rewrite checkDependencies_cons. by rewrite decide_True.
  - intros Hlt Hin.
    apply list_elem_of_split_l in Hin as (pre & post & -> & Hpre).
    exists pre, post. split; [done|]. split; [done|].
    destruct (decide (Exists (candidateFails fuel s t) pre)) as [Hex|Hall].
    + right. destruct (first_failure _ _ _ _ Hex) as (p1 & c & p2 & -> & Hp1 & Hc).
      assert (c ≠ t) as Hne by set_solver.
      destruct Hc as [?|Hc]; [done|]. exists c. split; [set_solver|]. split; [done|].
      apply POST_rejected; [done|]. rewrite <-app_assoc. simpl.
      replace (WouldCreateCircular c) with (rejection t c)
        by (unfold rejection; by rewrite decide_False).
      apply checkDependencies_reject; [done..|by right].
    + left. apply not_Exists_Forall in Hall; [|intros c; apply _]. split.
      * eapply Forall_impl; [done|]. intros c Hc. simpl in Hc.
        destruct (hasCircularDependencies_returns fuel s t c Hlt) as [[] Hb];
          [|done]. destruct Hc. by right.
      * apply POST_rejected; [done|].
        replace CannotAddSelf with (rejection t t)
          by (unfold rejection; by rewrite decide_True).
        apply checkDependencies_reject; [done..|by left].
  - intros Hac Hlt Hin.
    apply list_elem_of_split_l in Hin as (pre & post & -> & Hpre).
    apply POST_rejected; [done|].
    replace CannotAddSelf with (rejection t t)
      by (unfold rejection; by rewrite decide_True).
    apply checkDependencies_reject; [done| |by left].
    apply Forall_forall. intros c Hc [->|Hb]; [done|].
    by apply (hasCircularDependencies_acyclic _ _ _ _ _ Hac) in Hb.
Qed.

Lemma self_dependency_rejected_witness :
  POST 0 3 [3; 1] threeCyclic = Returned CannotAddSelf threeCyclic
  ∧ POST 4 1 [2; 1] (scenarioEnd (day 2) (day 3))
    = Returned CannotAddSelf (scenarioEnd (day 2) (day 3)).
Proof.
  split.
  - apply (self_dependency_rejected 0 threeCyclic 3 []). by eexists.
  - destruct (self_dependency_rejected 4 (scenarioEnd (day 2) (day 3)) 1 [2; 1])
      as (_ & H & _); [by eexists|].
    destruct H as (pre & post & Heq & Hpre & [[_ HP]|(c & Hc & Hb & _)]).
    + simpl. lia.
    + right. by left.
    + exact HP.
    + exfalso. destruct pre as [|x pre]; [by apply elem_of_nil in Hc|].
      injection Heq as <- Heq. destruct pre as [|y pre].
      * apply list_elem_of_singleton in Hc as ->. discriminate Hb.
      * injection Heq as <- Heq. apply Hpre. right. by left.
Defined.

(** ** The frame of an edit *)

Lemma updateCriticalPathStatus_earliestStart fuel s s' j :
  updateCriticalPathStatus fuel s = Returned () s' →
  Todo.earliestStart <$> findUnique s' j = Todo.earliestStart <$> findUnique s j.
Proof.
  intros H. pose proof (updateCriticalPathStatus_same fuel s) as Hsame.
  rewrite H in Hsame. symmetry. by apply same_earliestStart.
Qed.

(** C10. After a successful [POST] or [DELETE] on todo [id], the stored
    [earliestStart] of every other todo is what it was before: only the
    row of [id] receives the recomputed value, and the recompute of the
    critical path writes the critical flags only. So a dependent keeps a
    stored value that the edit has made stale: in the scenario, after B
    is made to depend on A the row of C, which depends on B, still holds
    the day on which B was created, while [calculateEarliestStart] on C
    now returns day 1. *)
Theorem edit_keeps_other_earliestStart :
  (∀ fuel id dependencyIds s s',
     POST fuel id dependencyIds s = Returned DependenciesAdded s'
     ∨ DELETE fuel id dependencyIds s = Returned DependenciesRemoved s' →
     ∀ j, j ≠ id →
       Todo.earliestStart <$> findUnique s' j
       = Todo.earliestStart <$> findUnique s j)
  ∧ (POST 4 2 [1] (scenarioMid (day 2) (day 3))
     = Returned DependenciesAdded (scenarioEnd (day 2) (day 3))
     ∧ depends (scenarioEnd (day 2) (day 3)) 3 2
     ∧ Todo.earliestStart <$> findUnique (scenarioEnd (day 2) (day 3)) 3
       = Some (Some (day 2))
     ∧ calculateEarliestStart 4 (scenarioEnd (day 2) (day 3)) 3
       = Some (Some (day 1))).
Proof.
  split.
  - intros fuel id dependencyIds s s' [H|H] j Hj.
    + rewrite POST_unfold in H. destruct (findUnique s id); [|done].
      pose proof (checkDependencies_reads fuel id dependencyIds s) as Hc.
      destruct (checkDependencies fuel id dependencyIds s) as [[r0|] s0|s0|s0];
        [naive_solver| |done..].
      destruct Hc as [-> _].
      destruct (connect id dependencyIds s) as [s1|] eqn:Ec; [|done].
      destruct (calculateEarliestStart fuel s1 id) as [e|]; [|done].
      destruct (update id (Todo.set_earliestStart e) s1) as [s2|] eqn:Eu; [|done].
      destruct (updateCriticalPathStatus fuel s2) as [[] s3|s3|s3] eqn:Er; [|done..].
      injection H as <-.
      rewrite (updateCriticalPathStatus_earliestStart _ _ _ _ Er).
      rewrite (findUnique_update_ne id (Todo.set_earliestStart e) s1 s2 j
                 (λ _, eq_refl) Eu Hj).
      by rewrite (findUnique_todos s s1) by (by eapply connect_todos).
    + rewrite DELETE_unfold in H.
      destruct (disconnect id dependencyIds s) as [s1|] eqn:Ec; [|done].
      destruct (calculateEarliestStart fuel s1 id) as [e|]; [|done].
      destruct (update id (Todo.set_earliestStart e) s1) as [s2|] eqn:Eu; [|done].
      destruct (updateCriticalPathStatus fuel s2) as [[] s3|s3|s3] eqn:Er; [|done..].
      injection H as <-.
      rewrite (updateCriticalPathStatus_earliestStart _ _ _ _ Er).
      rewrite (findUnique_update_ne id (Todo.set_earliestStart e) s1 s2 j
                 (λ _, eq_refl) Eu Hj).
      by rewrite (findUnique_todos s s1) by (by eapply disconnect_todos).
  - split; [reflexivity|]. split; [|split; reflexivity].
    split; [by eexists|]. vm_compute. repeat constructor.
Qed.

Lemma edit_keeps_other_earliestStart_witness :
  Todo.earliestStart <$> findUnique (scenarioEnd (day 2) (day 3)) 3
  = Todo.earliestStart <$> findUnique (scenarioMid (day 2) (day 3)) 3
  ∧ ∃ s', DELETE 4 2 [1] (scenarioEnd (day 2) (day 3))
          = Returned DependenciesRemoved s'
      ∧ Todo.earliestStart <$> findUnique s' 3
        = Todo.earliestStart <$> findUnique (scenarioEnd (day 2) (day 3)) 3.
Proof.
  destruct edit_keeps_other_earliestStart as [H _]. split.
  - apply (H 4%nat 2 [1]); [left; reflexivity|lia].
  - eexists. split; [reflexivity|].
    apply (H 4%nat 2 [1]); [right; reflexivity|lia].
Defined.

(** ** An edge that closes a cycle *)

Lemma addEdges_elem i dependencyIds es e :
  e ∈ foldl (λ es d, addEdge (i, d) es) es dependencyIds
  ↔ e ∈ es ∨ ∃ d, d ∈ dependencyIds ∧ e = (i, d).
Proof.
  revert es. induction dependencyIds as [|d l IH]; intros es; simpl.
  - set_solver.
  - rewrite IH. unfold addEdge. case_decide; set_solver.
Qed.

Lemma connect_Some i dependencyIds s :
  is_Some (findUnique s i) →
  (∀ d, d ∈ dependencyIds → is_Some (findUnique s d)) →
  ∃ s', connect i dependencyIds s = Some s' ∧ todos s' = todos s
    ∧ ∀ e, e ∈ edges s' ↔ e ∈ edges s ∨ ∃ d, d ∈ dependencyIds ∧ e = (i, d).
Proof.
  intros [todo Hi] Hd. unfold connect. rewrite Hi.
  rewrite (proj2 (forallb_forall _ _)).
  - eexists. split; [done|]. split; [done|]. intros e. simpl. apply addEdges_elem.
  - intros d Hin. apply bool_decide_eq_true, Hd. by apply list_elem_of_In.
Qed.

Lemma depends_more_edges s s' x y :
  todos s' = todos s → (∀ e, e ∈ edges s → e ∈ edges s') →
  depends s x y → depends s' x y.
Proof.
  intros Ht He [Hx Hy]. apply list_elem_of_fmap in Hy as (d & -> & Hd).
  apply dependencies_elem in Hd as [Hin Hf]. split.
  - by rewrite (findUnique_todos s s').
  - apply list_elem_of_fmap. exists d. split; [done|]. apply dependencies_elem.
    split; [by apply He|]. by rewrite (findUnique_todos s s').
Qed.

Lemma tc_depends_ends s x y :
  tc (depends s) x y → is_Some (findUnique s x) ∧ is_Some (findUnique s y).
Proof.
  induction 1 as [x y H|x y z H _ [_ IH]].
  - split; [apply H|by eapply depends_target].
  - split; [apply H|done].
Qed.

(** Whenever A depends, directly or transitively, on B in a store without
    cycle, the request to make B depend on A is not rejected: the edge is
    written, B now depends on itself, and the handler is left hanging. *)
Lemma closing_edge_accepted fuel s a b :
  Acyclic s → (length (todos s) < fuel)%nat → tc (depends s) a b →
  ∃ s', POST fuel b [a] s = Pending s'
    ∧ (b, a) ∈ edges s' ∧ tc (depends s') b b.
Proof.
  intros Hac Hlt Hab. destruct (tc_depends_ends _ _ _ Hab) as [Ha Hb].
  assert (a ≠ b) as Hne by (intros ->; by apply Hac in Hab).
  destruct (connect_Some b [a] s Hb) as (s' & Hc & Ht & He).
  { intros d Hd. by apply list_elem_of_singleton in Hd as ->. }
  assert ((b, a) ∈ edges s') as Hedge.
  { apply He. right. exists a. split; [by left|done]. }
  assert (tc (depends s') b b) as Hcycle.
  { apply tc_l with a.
    - destruct Ha as [ta Ha]. split; [by rewrite (findUnique_todos s s')|].
      apply list_elem_of_fmap. exists ta. apply findUnique_Some in Ha as Hta.
      split; [by destruct Hta|]. apply dependencies_elem.
      destruct Hta as [-> _]. split; [done|]. by rewrite (findUnique_todos s s').
    - assert (∀ e, e ∈ edges s → e ∈ edges s') as Hsub
        by (intros e ?; apply He; by left).
      clear -Hab Ht Hsub. induction Hab as [x y H|x y z H _ IH].
      + apply tc_once. by eapply depends_more_edges.
      + apply tc_l with y; [|exact IH]. by eapply depends_more_edges. }
  exists s'. split; [|done]. destruct Hb as [tb Hb]. rewrite POST_unfold, Hb.
  rewrite checkDependencies_cons, decide_False by done.
  rewrite hasCircularDependencies_acyclic_false by done. simpl.
  unfold ret. rewrite Hc.
  rewrite calculateEarliestStart_diverges; [done|]. exists b. split; done.
Qed.

(** ** The two scenarios *)

(** C1. The claim is broken by the code at the smallest input: in the
    store where A (todo 1) depends on B (todo 2), which the request "1
    depends on 2" produces and which has no cycle, the detector answers
    [false] for the edge from B to A, the request "2 depends on 1" is not
    rejected, the edge is written, and the handler then hangs in
    [calculateEarliestStart] on a store that has the cycle 1, 2, 1. No
    amount of fuel makes the request return a response. The same happens
    for every pair: whenever A depends on B in a store without cycle, the
    detector answers [false] for the edge from B to A, and the request is
    accepted, writes the edge and hangs. *)
Theorem cycle_not_detected :
  (∀ fuel,
     POST (2 + fuel) 1 [2] twoTodos = Returned DependenciesAdded aDependsOnB
     ∧ hasCircularDependencies (2 + fuel) aDependsOnB 2 1 = Some false
     ∧ POST (2 + fuel) 2 [1] aDependsOnB = Pending cyclicStore)
  ∧ depends aDependsOnB 1 2
  ∧ Acyclic aDependsOnB
  ∧ edges cyclicStore = [(1, 2); (2, 1)]
  ∧ tc (depends cyclicStore) 1 1
  ∧ (∀ fuel, ∃ s', POST fuel 2 [1] aDependsOnB = Pending s')
  ∧ (∀ fuel s a b,
       Acyclic s → (length (todos s) < fuel)%nat → tc (depends s) a b →
       hasCircularDependencies fuel s b a = Some false
       ∧ ∃ s', POST fuel b [a] s = Pending s'
           ∧ (b, a) ∈ edges s' ∧ tc (depends s') b b).
Proof.
  assert (∀ fuel, POST (2 + fuel) 2 [1] aDependsOnB = Pending cyclicStore) as HP.
  { intros fuel. rewrite POST_unfold.
    assert (findUnique aDependsOnB 2
            = Some (Todo.mk 2 "B" None None None (day 2) None true)) as ->
      by reflexivity.
    assert (checkDependencies (2 + fuel) 2 [1] aDependsOnB
            = Returned None aDependsOnB) as -> by reflexivity.
    assert (connect 2 [1] aDependsOnB = Some cyclicStore) as -> by reflexivity.
    rewrite calculateEarliestStart_diverges; [done|].
    exists 1. split; [|apply cyclicStore_cycle].
    apply rtc_once. split; [by eexists|]. vm_compute. repeat constructor. }
  split; [intros fuel; split; [reflexivity|split; [reflexivity|apply HP]]|].
  split; [split; [by eexists|vm_compute; repeat constructor]|].
  split; [apply (Acyclic_by_calculation _ 2); repeat constructor; by eexists|].
  split; [reflexivity|]. split; [apply cyclicStore_cycle|]. split.
  - intros [|[|fuel]]; [by eexists..|]. exists cyclicStore. apply HP.
  - intros fuel s a b Hac Hlt Hab.
    split; [by apply hasCircularDependencies_acyclic_false|].
    by apply closing_edge_accepted.
Qed.

(** C2. The claim fails in the scenario itself, with B created on day 2
    and C on day 3: after the two adds the calculator returns day 1 for
    C, and the value stored for C is day 2; neither is day 5, the due
    date of B. *)
Lemma scenario_C_is_not_day5 :
  POST 4 3 [2] (scenarioStart (day 2) (day 3))
  = Returned DependenciesAdded (scenarioMid (day 2) (day 3))
  ∧ POST 4 2 [1] (scenarioMid (day 2) (day 3))
    = Returned DependenciesAdded (scenarioEnd (day 2) (day 3))
  ∧ calculateEarliestStart 4 (scenarioEnd (day 2) (day 3)) 3
    = Some (Some (day 1))
  ∧ Todo.earliestStart <$> findUnique (scenarioEnd (day 2) (day 3)) 3
    = Some (Some (day 2))
  ∧ day 1 ≠ day 5 ∧ day 2 ≠ day 5.
Proof.
  split; [reflexivity|]. split; [reflexivity|]. split; [reflexivity|].
  split; [reflexivity|]. split; discriminate.
Qed.

(** C2, amended. In the scenario, whenever B and C were created, the adds
    of C on B and then of B on A succeed; afterwards the calculator
    returns day 1 for B (the creation date of A) and day 1 for C as well:
    the earliest start computed for B is a date, so that the due date of
    B is not looked at. The row of C holds what the first add computed,
    the creation date of B; with the two adds in the other order it holds
    day 1. The recompute marks A, B and C, that is every todo, critical. *)
Theorem scenario_earliest_start_and_critical_path b c fuel :
  POST (3 + fuel) 3 [2] (scenarioStart b c)
  = Returned DependenciesAdded (scenarioMid b c)
  ∧ POST (3 + fuel) 2 [1] (scenarioMid b c)
    = Returned DependenciesAdded (scenarioEnd b c)
  ∧ calculateEarliestStart (3 + fuel) (scenarioEnd b c) 2 = Some (Some (day 1))
  ∧ calculateEarliestStart (3 + fuel) (scenarioEnd b c) 3 = Some (Some (day 1))
  ∧ Todo.earliestStart <$> findUnique (scenarioEnd b c) 2 = Some (Some (day 1))
  ∧ Todo.earliestStart <$> findUnique (scenarioEnd b c) 3 = Some (Some b)
  ∧ (∃ s', (await _ ← POST (3 + fuel) 2 [1]; POST (3 + fuel) 3 [2])
             (scenarioStart b c) = Returned DependenciesAdded s'
           ∧ Todo.earliestStart <$> findUnique s' 3 = Some (Some (day 1)))
  ∧ updateCriticalPathStatus (3 + fuel) (scenarioEnd b c)
    = Returned () (scenarioEnd b c)
  ∧ (Todo.id <$> filter (λ t, Todo.isCritical t = true) (todos (scenarioEnd b c)))
    = [1; 2; 3].
Proof.
  split; [reflexivity|]. split; [reflexivity|]. split; [reflexivity|].
  split; [reflexivity|]. split; [reflexivity|]. split; [reflexivity|].
  split; [eexists; split; [vm_compute; reflexivity|reflexivity]|].
  split; reflexivity.
Qed.

(** * Further properties of the code *)

(** ** What the cycle detector decides *)

(** An answer [true] comes from a cycle that the store already holds and
    that can be reached from [newDependencyId]. *)
Section dfs_sound.
Context (s : Store) (newDependencyId : Z).

Lemma dfs_loop_sound fuel cur deps st stack1 b st' :
  (∀ c st b st',
     rtc (depends s) newDependencyId c → is_Some (findUnique s c) →
     (∀ y, y ∈ recursionStack st → tc (depends s) y c) →
     dfs fuel s newDependencyId c st = Some (b, st') →
     if b then reachesCycle s newDependencyId
     else recursionStack st' ⊆ recursionStack st) →
  rtc (depends s) newDependencyId cur →
  is_Some (findUnique s cur) →
  (∀ y, y ∈ stack1 → y = cur ∨ tc (depends s) y cur) →
  (∀ d, d ∈ deps → d ∈ dependencies s cur) →
  recursionStack st ⊆ stack1 →
  dfs_loop (dfs fuel s newDependencyId) newDependencyId cur deps st
  = Some (b, st') →
  if b then reachesCycle s newDependencyId
  else recursionStack st' ⊆ stack1 ∖ {[cur]}.
Proof.
  intros IH Hreach [todo Hcur] Hstack. revert st.
  induction deps as [|d deps IHd]; intros st Hdeps Hsub; simpl.
  - intros [= <- <-]. simpl. set_solver.
  - assert (depends s cur (Todo.id d)) as Hd.
    { eapply depends_intro; [done|]. apply Hdeps. by left. }
    case_decide as Hnd.
    + intros [= <- <-]. exists newDependencyId. split; [done|].
      rewrite Hnd in Hd. eapply tc_rtc_l; [done|]. by apply tc_once.
    + destruct (dfs fuel s newDependencyId (Todo.id d) st) as [[b1 st1]|] eqn:E;
        [|done].
      assert (if b1 then reachesCycle s newDependencyId
              else recursionStack st1 ⊆ recursionStack st) as H1.
      { apply (IH (Todo.id d) st b1 st1); [|by eapply depends_target| |done].
        - eapply rtc_r; done.
        - intros y Hy. apply Hsub, Hstack in Hy as [->|Hy]; [by apply tc_once|].
          eapply tc_r; done. }
      destruct b1; [by intros [= <- <-]|].
      apply IHd; [|set_solver]. intros d' Hd'. apply Hdeps. by right.
Qed.

Lemma dfs_sound fuel :
  ∀ c st b st',
    rtc (depends s) newDependencyId c → is_Some (findUnique s c) →
    (∀ y, y ∈ recursionStack st → tc (depends s) y c) →
    dfs fuel s newDependencyId c st = Some (b, st') →
    if b then reachesCycle s newDependencyId
    else recursionStack st' ⊆ recursionStack st.
Proof.
  induction fuel as [|fuel IH]; intros c st b st' Hreach Hc Hstack; [done|]. simpl.
  case_decide as Hin.
  { intros [= <- <-]. exists c. split; [done|]. by apply Hstack. }
  case_decide; [by intros [= <- <-]|].
  destruct Hc as [todo Hc]. rewrite Hc. intros Hloop.
  apply (dfs_loop_sound fuel c _ _ ({[c]} ∪ recursionStack st)) in Hloop;
    [|done..|eauto| |done|done].
  - destruct b; [done|]. set_solver.
  - intros y Hy. apply elem_of_union in Hy as [Hy|Hy]; [left; set_solver|].
    right. by apply Hstack.
Qed.
End dfs_sound.

Lemma hasCircularDependencies_sound fuel s todoId newDependencyId :
  hasCircularDependencies fuel s todoId newDependencyId = Some true →
  reachesCycle s newDependencyId.
Proof.
  intros H. pose proof (hasCircularDependencies_true_exists _ _ _ _ H) as Hex.
  unfold hasCircularDependencies in H.
  destruct (dfs fuel s _ _ _) as [[b st']|] eqn:E; [|done]. injection H as ->.
  apply (dfs_sound s newDependencyId fuel newDependencyId (mkDfs ∅ ∅) true st');
    [done|done| |done].
  set_solver.
Qed.

(** An answer [false] leaves every todo that the search has met finished,
    with ranks that decrease along the dependencies: no cycle can be
    reached from [newDependencyId]. *)
Section dfs_complete.
Context (s : Store) (newDependencyId : Z).

Lemma finished_grows st st' v :
  recursionStack st' = recursionStack st → visited st ⊆ visited st' →
  finished st v → finished st' v.
Proof. unfold finished. intros -> Hsub [Hv Hr]. split; [set_solver|done]. Qed.

Lemma dfs_loop_complete fuel cur deps st st' rank bound :
  (∀ c st st' rank bound,
     is_Some (findUnique s c) → settled s st rank bound →
     dfs fuel s newDependencyId c st = Some (false, st') →
     ∃ rank' bound', settled s st' rank' bound'
       ∧ recursionStack st' = recursionStack st
       ∧ visited st ⊆ visited st' ∧ finished st' c) →
  is_Some (findUnique s cur) →
  (∀ d, d ∈ deps → d ∈ dependencies s cur) →
  settled s st rank bound →
  dfs_loop (dfs fuel s newDependencyId) newDependencyId cur deps st
  = Some (false, st') →
  ∃ stf rank' bound',
    st' = mkDfs (visited stf) (recursionStack stf ∖ {[cur]})
    ∧ settled s stf rank' bound'
    ∧ recursionStack stf = recursionStack st
    ∧ visited st ⊆ visited stf
    ∧ ∀ d, d ∈ deps → finished stf (Todo.id d).
Proof.
  intros IH [todo Hcur]. revert st rank bound.
  induction deps as [|d deps IHd]; intros st rank bound Hdeps Hset; simpl.
  - intros [= <-]. exists st, rank, bound. do 4 (split; [done|]).
    intros d Hd. by apply elem_of_nil in Hd.
  - case_decide; [done|].
    destruct (dfs fuel s newDependencyId (Todo.id d) st) as [[[] st1]|] eqn:E;
      [done| |done].
    intros Hloop.
    destruct (IH (Todo.id d) st st1 rank bound) as (rank1 & bound1 & Hset1 & Hst1 & Hv1 & Hd1);
      [|done|done|].
    { eapply depends_target, depends_intro; [done|]. apply Hdeps. by left. }
    destruct (IHd st1 rank1 bound1) as (stf & rank' & bound' & -> & Hsetf & Hstf & Hvf & Hf);
      [intros d' Hd'; apply Hdeps; by right|done|done|].
    exists stf, rank', bound'. split; [done|]. split; [done|].
    split; [congruence|]. split; [set_solver|].
    intros d' Hd'. apply elem_of_cons in Hd' as [->|Hd']; [|by apply Hf].
    by eapply finished_grows.
Qed.

Lemma dfs_complete fuel :
  ∀ c st st' rank bound,
    is_Some (findUnique s c) → settled s st rank bound →
    dfs fuel s newDependencyId c st = Some (false, st') →
    ∃ rank' bound', settled s st' rank' bound'
      ∧ recursionStack st' = recursionStack st
      ∧ visited st ⊆ visited st' ∧ finished st' c.
Proof.
  induction fuel as [|fuel IH]; intros c st st' rank bound Hc Hset; [done|]. simpl.
  case_decide as Hstack; [done|].
  case_decide as Hvis.
  { intros [= <-]. exists rank, bound. do 3 (split; [done|]). by split. }
  destruct Hc as [todo Hc]. rewrite Hc. intros Hloop.
  apply (dfs_loop_complete fuel c _ _ _ rank bound) in Hloop
    as (stf & rankf & boundf & -> & [Hdep Hbound] & Hstf & Hvf & Hf);
    [|done|eauto|done|].
  2:{ destruct Hset as [Hdep Hbound]. split.
      - intros v w [Hv Hr] Hvw. simpl in Hv, Hr.
        destruct (Hdep v w) as [[Hw1 Hw2] Hlt]; [split; set_solver|done|].
        split; [|done]. split; simpl; set_solver.
      - intros v [Hv Hr]. simpl in Hv, Hr. apply Hbound. split; set_solver. }
  simpl in Hstf, Hvf.
  assert (∀ w, finished stf w → w ≠ c) as Hne.
  { intros w [_ Hw] ->. apply Hw. rewrite Hstf. set_solver. }
  exists (λ z, if decide (z = c) then boundf else rankf z), (S boundf).
  split; [split|].
  - intros v w [Hv Hr] Hvw. simpl in Hv, Hr.
    destruct (decide (v = c)) as [->|Hvc].
    + destruct Hvw as [_ Hw]. apply list_elem_of_fmap in Hw as (d & -> & Hd).
      pose proof (Hf d Hd) as Hfd. pose proof (Hne _ Hfd).
      rewrite decide_False by done. split; [|by apply Hbound].
      destruct Hfd as [? ?]. split; simpl; set_solver.
    + assert (finished stf v) as Hfv by (split; set_solver).
      destruct (Hdep v w Hfv Hvw) as [Hfw Hlt]. pose proof (Hne _ Hfw).
      rewrite decide_False by done. split; [|done].
      destruct Hfw as [? ?]. split; simpl; set_solver.
  - intros v [Hv Hr]. simpl in Hv, Hr. case_decide; [lia|].
    assert (rankf v < boundf)%nat; [|lia]. apply Hbound. split; set_solver.
  - simpl. split; [rewrite Hstf; set_solver|]. split; [set_solver|].
    split; simpl; set_solver.
Qed.
End dfs_complete.

Lemma settled_closed s st rank bound v w :
  settled s st rank bound → finished st v → rtc (depends s) v w → finished st w.
Proof.
  intros [Hdep _] Hv Hvw. induction Hvw as [|x y z Hxy _ IH]; [done|].
  apply IH. by apply (Hdep x y).
Qed.

Lemma settled_decreases s st rank bound v w :
  settled s st rank bound → finished st v → tc (depends s) v w →
  (rank w < rank v)%nat.
Proof.
  intros Hset Hv Hvw. induction Hvw as [x y Hxy|x y z Hxy _ IH].
  - by apply Hset.
  - destruct Hset as [Hdep Hb]. destruct (Hdep x y Hv Hxy) as [Hy Hlt].
    specialize (IH Hy). lia.
Qed.

Lemma hasCircularDependencies_complete fuel s todoId newDependencyId :
  hasCircularDependencies fuel s todoId newDependencyId = Some false →
  ¬ reachesCycle s newDependencyId.
Proof.
  intros H Hcyc. destruct (reachesCycle_step _ _ Hcyc) as (todo & _ & Ht & _).
  unfold hasCircularDependencies in H.
  destruct (dfs fuel s _ _ _) as [[b st']|] eqn:E; [|done]. injection H as ->.
  destruct (dfs_complete s newDependencyId fuel newDependencyId (mkDfs ∅ ∅) st'
              (λ _, 0%nat) 0%nat) as (rank & bound & Hset & _ & _ & Hfin);
    [eauto| |done|].
  { split; intros v; intros; unfold finished in *; simpl in *; set_solver. }
  destruct Hcyc as (y & Hy & Hyy).
  pose proof (settled_closed _ _ _ _ _ _ Hset Hfin Hy) as Hfy.
  pose proof (settled_decreases _ _ _ _ _ _ Hset Hfy Hyy). lia.
Qed.

(** X1. With more fuel than the store has rows, the detector answers
    [true] exactly when a cycle that the store already holds can be
    reached from [newDependencyId], and [false] exactly when none can:
    its answer says nothing about the edge from [todoId] that is to be
    added. *)
Theorem hasCircularDependencies_decides fuel s todoId newDependencyId :
  (length (todos s) < fuel)%nat →
  (hasCircularDependencies fuel s todoId newDependencyId = Some true
   ↔ reachesCycle s newDependencyId)
  ∧ (hasCircularDependencies fuel s todoId newDependencyId = Some false
     ↔ ¬ reachesCycle s newDependencyId).
Proof.
  intros Hlt.
  destruct (hasCircularDependencies_returns fuel s todoId newDependencyId Hlt)
    as [[] Hb].
  - pose proof (hasCircularDependencies_sound _ _ _ _ Hb) as Hc.
    rewrite Hb. split; split; try done.
  - pose proof (hasCircularDependencies_complete _ _ _ _ Hb) as Hc.
    rewrite Hb. split; split; done.
Qed.

Lemma hasCircularDependencies_decides_witness :
  reachesCycle threeCyclic 1 ∧ ¬ reachesCycle threeCyclic 3.
Proof.
  split.
  - apply (hasCircularDependencies_decides 4 threeCyclic 3 1); [simpl; lia|].
    reflexivity.
  - apply (hasCircularDependencies_decides 4 threeCyclic 1 3); [simpl; lia|].
    reflexivity.
Defined.

(** ** What the earliest start is made of *)

Lemma source_only_reaches_itself s y t z :
  source s y t → rtc (depends s) y z → z = y.
Proof.
  intros [_ Hd] Hyz. destruct Hyz as [|y w z [_ Hw] _]; [done|].
  rewrite Hd in Hw. by apply elem_of_nil in Hw.
Qed.

Lemma calculateEarliestStart_sources fuel s x t r :
  findUnique s x = Some t →
  calculateEarliestStart fuel s x = Some r →
  ∃ m, r = Some m
    ∧ (∃ y ty, rtc (depends s) x y ∧ source s y ty ∧ Todo.createdAt ty = m)
    ∧ (∀ y ty, rtc (depends s) x y → source s y ty → Todo.createdAt ty ≤ m).
Proof.
  revert x t r. induction fuel as [|fuel IH]; intros x t r Hx Hr; [done|].
  destruct (dependencies s x) as [|dep0 rest] eqn:Ed.
  - rewrite calculateEarliestStart_unfold, Hx, Ed in Hr. injection Hr as <-.
    exists (Todo.createdAt t). split; [done|]. split.
    + exists x, t. by repeat split.
    + intros y ty Hxy Hy.
      apply (source_only_reaches_itself s x t) in Hxy as ->; [|done].
      destruct Hy as [Hy _]. rewrite Hx in Hy. by injection Hy as ->.
  - assert (dependencies s x ≠ []) as Hne by (by rewrite Ed).
    destruct (calculateEarliestStart_latest _ _ _ _ _ Hx Hne Hr)
      as (m & -> & Hge & dep & e & Hin & He & Hm).
    assert (∀ d e, d ∈ dependencies s x →
              calculateEarliestStart fuel s (Todo.id d) = Some e →
              ∃ md, firstDate e d = md
                ∧ (∃ y ty, rtc (depends s) (Todo.id d) y ∧ source s y ty
                           ∧ Todo.createdAt ty = md)
                ∧ (∀ y ty, rtc (depends s) (Todo.id d) y → source s y ty →
                           Todo.createdAt ty ≤ md)) as Hdep.
    { intros d e' Hd He'. apply dependencies_elem in Hd as [_ Hd].
      destruct (IH _ _ _ Hd He') as (md & -> & H1 & H2). by exists md. }
    exists m. split; [done|]. split.
    + destruct (Hdep dep e Hin He) as (md & Hmd & (y & ty & Hy & Hs & Hc) & _).
      exists y, ty. split; [|split; [done|congruence]].
      eapply rtc_l; [|done]. by eapply depends_intro.
    + intros y ty Hxy Hy. destruct Hxy as [x|x z y Hxz Hzy].
      { destruct Hy as [_ Hy]. congruence. }
      destruct Hxz as [_ Hz]. apply list_elem_of_fmap in Hz as (d & -> & Hd).
      destruct (Hge d Hd) as (e' & He' & Hle).
      destruct (Hdep d e' Hd He') as (md & Hmd & _ & Hup).
      specialize (Hup y ty Hzy Hy). lia.
Qed.

(** X2. Whenever [calculateEarliestStart] returns on a todo of the store,
    it returns a date, never [null]: the latest creation date among the
    todos without dependencies that can be reached from it (the todo
    itself, if it has none). Due dates have no part in it. *)
Theorem earliestStart_is_latest_source s x t r :
  findUnique s x = Some t →
  earliestStartIs s x r →
  ∃ m, r = Some m
    ∧ (∃ y ty, rtc (depends s) x y ∧ source s y ty ∧ Todo.createdAt ty = m)
    ∧ (∀ y ty, rtc (depends s) x y → source s y ty → Todo.createdAt ty ≤ m).
Proof. intros Hx [fuel Hr]. by eapply calculateEarliestStart_sources. Qed.

Lemma earliestStart_is_latest_source_witness :
  ∃ m, Some (day 1) = Some m
    ∧ (∃ y ty, rtc (depends (scenarioEnd (day 2) (day 3))) 3 y
               ∧ source (scenarioEnd (day 2) (day 3)) y ty
               ∧ Todo.createdAt ty = m)
    ∧ (∀ y ty, rtc (depends (scenarioEnd (day 2) (day 3))) 3 y →
               source (scenarioEnd (day 2) (day 3)) y ty →
               Todo.createdAt ty ≤ m).
Proof.
  apply (earliestStart_is_latest_source (scenarioEnd (day 2) (day 3)) 3
           (Todo.mk 3 "C" None None None (day 3) (Some (day 2)) true)).
  - reflexivity.
  - exists 3%nat. reflexivity.
Defined.

(** ** Rewriting rows keeps the graph *)

Lemma update_updateMany i f s s' :
  update i f s = Some s' → s' = updateMany (rewriteRow i f) s.
Proof. unfold update. destruct (findUnique s i); [|done]. by intros [= <-]. Qed.

Lemma keepsDates_rewriteRow i f : keepsDates f → keepsDates (rewriteRow i f).
Proof. intros Hf t. unfold rewriteRow. case_decide; [apply Hf|done]. Qed.

Lemma keepsDates_set_isCritical b : keepsDates (Todo.set_isCritical b).
Proof. done. Qed.

Lemma keepsDates_set_earliestStart e : keepsDates (Todo.set_earliestStart e).
Proof. done. Qed.

Lemma ids_updateMany f s :
  (∀ t, Todo.id (f t) = Todo.id t) →
  Todo.id <$> todos (updateMany f s) = Todo.id <$> todos s.
Proof.
  intros Hf. unfold updateMany. simpl. rewrite map_map. by apply map_ext.
Qed.

Lemma is_Some_findUnique_ids s s' i :
  Todo.id <$> todos s' = Todo.id <$> todos s →
  is_Some (findUnique s' i) ↔ is_Some (findUnique s i).
Proof. intros H. rewrite !findUnique_is_Some. unfold ids. by rewrite H. Qed.

Lemma depends_updateMany f s x y :
  (∀ t, Todo.id (f t) = Todo.id t) →
  depends (updateMany f s) x y ↔ depends s x y.
Proof.
  intros Hf. unfold depends.
  rewrite findUnique_updateMany, dependencies_updateMany by done.
  rewrite <-list_fmap_compose, fmap_is_Some.
  by rewrite (list_fmap_ext (Todo.id ∘ f) Todo.id (dependencies s x))
    by (intros; apply Hf).
Qed.

Lemma tc_depends_updateMany f s x y :
  (∀ t, Todo.id (f t) = Todo.id t) →
  tc (depends (updateMany f s)) x y ↔ tc (depends s) x y.
Proof.
  intros Hf. split; intros H; (eapply tc_congruence with (f := λ z, z); [|done]);
    intros a b; by apply depends_updateMany.
Qed.

Lemma Acyclic_updateMany f s :
  (∀ t, Todo.id (f t) = Todo.id t) → Acyclic s → Acyclic (updateMany f s).
Proof. intros Hf Hac x Hx. apply (Hac x). by eapply tc_depends_updateMany. Qed.

Lemma dependencyDate_keeps f rec rec' (d : Todo) :
  keepsDates f → (∀ z, rec z = rec' z) →
  dependencyDate rec (f d) = dependencyDate rec' d.
Proof.
  intros Hf Hrec. unfold dependencyDate, firstDate.
  destruct (Hf d) as (-> & -> & ->). by rewrite Hrec.
Qed.

Lemma mapM_dependencyDate_fmap f rec rec' (l : list Todo) :
  keepsDates f → (∀ z, rec z = rec' z) →
  mapM (dependencyDate rec) (f <$> l) = mapM (dependencyDate rec') l.
Proof.
  intros Hf Hrec. induction l as [|d l IH]; [done|]. csimpl.
  rewrite (dependencyDate_keeps f rec rec') by done.
  destruct (dependencyDate rec' d); [|done]. csimpl. f_equal. exact IH.
Qed.

Lemma latest_date_ext (X X' : option Z) (Y Y' : option (list Z)) :
  X = X' → Y = Y' →
  (d ← X; ds ← Y; Some (Some (foldl Z.max d ds)))
  = (d ← X'; ds ← Y'; Some (Some (foldl Z.max d ds))).
Proof. by intros -> ->. Qed.

(** The calculator reads ids, creation dates, due dates and edges only. *)
Lemma calculateEarliestStart_updateMany f fuel s x :
  keepsDates f →
  calculateEarliestStart fuel (updateMany f s) x = calculateEarliestStart fuel s x.
Proof.
  intros Hf. revert x. induction fuel as [|fuel IH]; intros x; [done|].
  rewrite !calculateEarliestStart_unfold.
  rewrite findUnique_updateMany, dependencies_updateMany by (intros; apply Hf).
  destruct (findUnique s x) as [t|]; [|done]. simpl.
  destruct (dependencies s x) as [|dep rest]; simpl.
  - by destruct (Hf t) as (_ & -> & _).
  - apply latest_date_ext.
    + by apply dependencyDate_keeps.
    + by apply mapM_dependencyDate_fmap.
Qed.

Lemma calculateEarliestStart_same fuel s s' x :
  sameButCritical s s' →
  calculateEarliestStart fuel s x = calculateEarliestStart fuel s' x.
Proof.
  intros Hsame.
  rewrite <-(calculateEarliestStart_updateMany (Todo.set_isCritical false) fuel s)
    by done.
  rewrite <-(calculateEarliestStart_updateMany (Todo.set_isCritical false) fuel s')
    by done.
  by rewrite Hsame.
Qed.

Lemma same_ids s s' :
  sameButCritical s s' → Todo.id <$> todos s = Todo.id <$> todos s'.
Proof.
  intros Hsame.
  rewrite <-(ids_updateMany (Todo.set_isCritical false) s) by done.
  rewrite <-(ids_updateMany (Todo.set_isCritical false) s') by done.
  by rewrite Hsame.
Qed.

Lemma findUnique_update_eq i f s s' :
  (∀ t, Todo.id (f t) = Todo.id t) →
  update i f s = Some s' → findUnique s' i = f <$> findUnique s i.
Proof.
  intros Hf Hu. rewrite (update_updateMany _ _ _ _ Hu).
  rewrite findUnique_updateMany.
  - destruct (findUnique s i) as [t|] eqn:E; [|done]. simpl.
    apply findUnique_Some in E as [E _]. unfold rewriteRow. by rewrite decide_True.
  - intros t. unfold rewriteRow. case_decide; [apply Hf|done].
Qed.

(** ** What the handlers do to the tables *)

Lemma checkDependencies_passed fuel id dependencyIds s s0 :
  checkDependencies fuel id dependencyIds s = Returned None s0 →
  id ∉ dependencyIds.
Proof.
  induction dependencyIds as [|c l IH]; [intros _; apply not_elem_of_nil|].
  rewrite checkDependencies_cons. case_decide as Hc; [done|].
  destruct (hasCircularDependencies fuel s id c) as [[]|]; [done| |done].
  intros H. apply IH in H. apply not_elem_of_cons. split; [congruence|done].
Qed.

Lemma connect_inv i dependencyIds s s' :
  connect i dependencyIds s = Some s' →
  is_Some (findUnique s i)
  ∧ (∀ d, d ∈ dependencyIds → is_Some (findUnique s d))
  ∧ todos s' = todos s
  ∧ edges s' = foldl (λ es d, addEdge (i, d) es) (edges s) dependencyIds.
Proof.
  unfold connect. destruct (findUnique s i) as [t|]; [|done].
  destruct (forallb _ _) eqn:E; [|done]. intros [= <-].
  split; [eauto|]. split; [|done]. intros d Hd.
  rewrite forallb_forall in E. apply list_elem_of_In, E in Hd.
  by apply bool_decide_eq_true in Hd.
Qed.

Lemma connect_edges i dependencyIds s s' e :
  connect i dependencyIds s = Some s' →
  e ∈ edges s' ↔ e ∈ edges s ∨ ∃ d, d ∈ dependencyIds ∧ e = (i, d).
Proof. intros (_ & _ & _ & ->)%connect_inv. apply addEdges_elem. Qed.

Lemma disconnect_inv i dependencyIds s s' :
  disconnect i dependencyIds s = Some s' →
  is_Some (findUnique s i) ∧ todos s' = todos s
  ∧ edges s' = filter (λ e, ¬ (e.1 = i ∧ e.2 ∈ dependencyIds)) (edges s).
Proof.
  unfold disconnect. destruct (findUnique s i) as [t|]; [|done].
  intros [= <-]. eauto.
Qed.

Lemma addEdges_NoDup i dependencyIds es :
  NoDup es → NoDup (foldl (λ es d, addEdge (i, d) es) es dependencyIds).
Proof.
  revert es. induction dependencyIds as [|d l IH]; intros es Hnd; [done|]. simpl.
  apply IH. unfold addEdge. case_decide; [done|].
  apply NoDup_app. split; [done|]. split; [|apply NoDup_singleton].
  intros x Hx Hx'. apply list_elem_of_singleton in Hx'. by subst.
Qed.

Lemma wellFormed_ext s s' :
  edges s' = edges s → Todo.id <$> todos s' = Todo.id <$> todos s →
  wellFormed s → wellFormed s'.
Proof.
  intros He Hi [Hnd Hfk]. split; [by rewrite He|]. intros a b Hab.
  rewrite He in Hab. destruct (Hfk a b Hab) as (Ha & Hb & Hne).
  by rewrite !(is_Some_findUnique_ids s s').
Qed.

Lemma wellFormed_connect i dependencyIds s s' :
  wellFormed s → i ∉ dependencyIds → connect i dependencyIds s = Some s' →
  wellFormed s'.
Proof.
  intros [Hnd Hfk] Hi Hc. pose proof (connect_inv _ _ _ _ Hc) as (Hx & Hd & Ht & He).
  split; [rewrite He; by apply addEdges_NoDup|]. intros a b Hab.
  rewrite !(findUnique_todos s s') by done.
  apply (connect_edges _ _ _ _ _ Hc) in Hab as [Hab|(d & Hin & [= -> ->])];
    [by apply Hfk|].
  split; [done|]. split; [by apply Hd|]. by intros ->.
Qed.

Lemma wellFormed_disconnect i dependencyIds s s' :
  wellFormed s → disconnect i dependencyIds s = Some s' → wellFormed s'.
Proof.
  intros [Hnd Hfk] (_ & Ht & He)%disconnect_inv.
  split; [rewrite He; by apply NoDup_filter|]. intros a b Hab.
  rewrite !(findUnique_todos s s') by done. apply Hfk.
  rewrite He in Hab. by apply list_elem_of_filter in Hab as [_ Hab].
Qed.

Lemma update_edges i f s s' : update i f s = Some s' → edges s' = edges s.
Proof. unfold update. destruct (findUnique s i); [|done]. by intros [= <-]. Qed.

Lemma update_ids i f s s' :
  (∀ t, Todo.id (f t) = Todo.id t) → update i f s = Some s' →
  Todo.id <$> todos s' = Todo.id <$> todos s.
Proof.
  intros Hf Hu. rewrite (update_updateMany _ _ _ _ Hu). apply ids_updateMany.
  intros t. unfold rewriteRow. case_decide; [apply Hf|done].
Qed.

Lemma updateCriticalPathStatus_final fuel s :
  edges (final (updateCriticalPathStatus fuel s)) = edges s
  ∧ Todo.id <$> todos (final (updateCriticalPathStatus fuel s))
    = Todo.id <$> todos s.
Proof.
  pose proof (updateCriticalPathStatus_same fuel s) as Hsame.
  split; [symmetry; by apply same_edges|symmetry; by apply same_ids].
Qed.

(** Whatever [POST] does, the store it leaves is the one it found, or has
    the rows of the one it found and the edges that [connect] has
    written. *)
Lemma POST_final fuel id dependencyIds s :
  final (POST fuel id dependencyIds s) = s
  ∨ ((id ∉ dependencyIds)
     ∧ ∃ s1, connect id dependencyIds s = Some s1
         ∧ edges (final (POST fuel id dependencyIds s)) = edges s1
         ∧ Todo.id <$> todos (final (POST fuel id dependencyIds s))
           = Todo.id <$> todos s1).
Proof.
  rewrite POST_unfold. destruct (findUnique s id) as [todo|]; [|by left].
  pose proof (checkDependencies_reads fuel id dependencyIds s) as Hc.
  pose proof (checkDependencies_passed fuel id dependencyIds s) as Hp.
  destruct (checkDependencies fuel id dependencyIds s) as [[r0|] s0|s0|s0];
    [left; naive_solver| |done|by left].
  destruct Hc as [-> _]. specialize (Hp s eq_refl).
  destruct (connect id dependencyIds s) as [s1|] eqn:Ec; [|by left].
  right. split; [done|]. exists s1. split; [done|].
  destruct (calculateEarliestStart fuel s1 id) as [e|]; [|done].
  destruct (update id (Todo.set_earliestStart e) s1) as [s2|] eqn:Eu; [|done].
  pose proof (update_edges _ _ _ _ Eu) as He.
  pose proof (update_ids id (Todo.set_earliestStart e) s1 s2
                (λ _, eq_refl) Eu) as Hi.
  pose proof (updateCriticalPathStatus_final fuel s2) as [He3 Hi3].
  destruct (updateCriticalPathStatus fuel s2) as [[] s3|s3|s3]; simpl in *;
    split; congruence.
Qed.

Lemma DELETE_final fuel id dependencyIds s :
  final (DELETE fuel id dependencyIds s) = s
  ∨ ∃ s1, disconnect id dependencyIds s = Some s1
      ∧ edges (final (DELETE fuel id dependencyIds s)) = edges s1
      ∧ Todo.id <$> todos (final (DELETE fuel id dependencyIds s))
        = Todo.id <$> todos s1.
Proof.
  rewrite DELETE_unfold.
  destruct (disconnect id dependencyIds s) as [s1|] eqn:Ec; [|by left].
  right. exists s1. split; [done|].
  destruct (calculateEarliestStart fuel s1 id) as [e|]; [|done].
  destruct (update id (Todo.set_earliestStart e) s1) as [s2|] eqn:Eu; [|done].
  pose proof (update_edges _ _ _ _ Eu) as He.
  pose proof (update_ids id (Todo.set_earliestStart e) s1 s2
                (λ _, eq_refl) Eu) as Hi.
  pose proof (updateCriticalPathStatus_final fuel s2) as [He3 Hi3].
  destruct (updateCriticalPathStatus fuel s2) as [[] s3|s3|s3]; simpl in *;
    split; congruence.
Qed.

(** X3. Whatever a request to [POST] or [DELETE] does (answer, throw
    caught, or hang), the store it leaves has the todos it found, none
    created and none deleted, and still meets the schema: no pair twice in
    the join table, no edge from or to a missing todo, and no todo that
    depends directly on itself. *)
Theorem handlers_keep_wellFormed fuel id dependencyIds s :
  wellFormed s →
  (wellFormed (final (POST fuel id dependencyIds s))
   ∧ Todo.id <$> todos (final (POST fuel id dependencyIds s))
     = Todo.id <$> todos s)
  ∧ (wellFormed (final (DELETE fuel id dependencyIds s))
     ∧ Todo.id <$> todos (final (DELETE fuel id dependencyIds s))
       = Todo.id <$> todos s).
Proof.
  intros Hwf. split.
  - destruct (POST_final fuel id dependencyIds s)
      as [->|(Hid & s1 & Hc & He & Hi)]; [done|].
    pose proof (connect_inv _ _ _ _ Hc) as (_ & _ & Ht & _).
    split; [|by rewrite Hi, Ht].
    eapply wellFormed_ext; [done..|]. by eapply wellFormed_connect.
  - destruct (DELETE_final fuel id dependencyIds s)
      as [->|(s1 & Hc & He & Hi)]; [done|].
    pose proof (disconnect_inv _ _ _ _ Hc) as (_ & Ht & _).
    split; [|by rewrite Hi, Ht].
    eapply wellFormed_ext; [done..|]. by eapply wellFormed_disconnect.
Qed.

Lemma scenarioMid_wellFormed b c : wellFormed (scenarioMid b c).
Proof.
  split; [apply NoDup_singleton|]. intros x y Hxy.
  apply list_elem_of_singleton in Hxy as [= -> ->].
  split; [by eexists|]. split; [by eexists|done].
Qed.

Lemma handlers_keep_wellFormed_witness :
  (wellFormed (final (POST 4 2 [1; 1] (scenarioMid (day 2) (day 3))))
   ∧ Todo.id <$> todos (final (POST 4 2 [1; 1] (scenarioMid (day 2) (day 3))))
     = Todo.id <$> todos (scenarioMid (day 2) (day 3)))
  ∧ (wellFormed (final (DELETE 4 2 [1; 1] (scenarioMid (day 2) (day 3))))
     ∧ Todo.id <$> todos (final (DELETE 4 2 [1; 1] (scenarioMid (day 2) (day 3))))
       = Todo.id <$> todos (scenarioMid (day 2) (day 3))).
Proof.
  apply (handlers_keep_wellFormed 4 2 [1; 1] (scenarioMid (day 2) (day 3))).
  apply scenarioMid_wellFormed.
Defined.

Lemma POST_success_inv fuel id dependencyIds s s' :
  POST fuel id dependencyIds s = Returned DependenciesAdded s' →
  (id ∉ dependencyIds)
  ∧ ∃ s1 e s2, connect id dependencyIds s = Some s1
      ∧ calculateEarliestStart fuel s1 id = Some e
      ∧ update id (Todo.set_earliestStart e) s1 = Some s2
      ∧ updateCriticalPathStatus fuel s2 = Returned () s'.
Proof.
  rewrite POST_unfold. destruct (findUnique s id); [|done].
  pose proof (checkDependencies_reads fuel id dependencyIds s) as Hc.
  pose proof (checkDependencies_passed fuel id dependencyIds s) as Hp.
  destruct (checkDependencies fuel id dependencyIds s) as [[r0|] s0|s0|s0];
    [naive_solver| |done..].
  destruct Hc as [-> _]. specialize (Hp s eq_refl).
  destruct (connect id dependencyIds s) as [s1|] eqn:Ec; [|done].
  destruct (calculateEarliestStart fuel s1 id) as [e|] eqn:Ee; [|done].
  destruct (update id (Todo.set_earliestStart e) s1) as [s2|] eqn:Eu; [|done].
  destruct (updateCriticalPathStatus fuel s2) as [[] s3|s3|s3] eqn:Er; [|done..].
  intros [= <-]. split; [done|]. by exists s1, e, s2.
Qed.

Lemma DELETE_success_inv fuel id dependencyIds s s' :
  DELETE fuel id dependencyIds s = Returned DependenciesRemoved s' →
  ∃ s1 e s2, disconnect id dependencyIds s = Some s1
    ∧ calculateEarliestStart fuel s1 id = Some e
    ∧ update id (Todo.set_earliestStart e) s1 = Some s2
    ∧ updateCriticalPathStatus fuel s2 = Returned () s'.
Proof.
  rewrite DELETE_unfold.
  destruct (disconnect id dependencyIds s) as [s1|] eqn:Ec; [|done].
  destruct (calculateEarliestStart fuel s1 id) as [e|] eqn:Ee; [|done].
  destruct (update id (Todo.set_earliestStart e) s1) as [s2|] eqn:Eu; [|done].
  destruct (updateCriticalPathStatus fuel s2) as [[] s3|s3|s3] eqn:Er; [|done..].
  intros [= <-]. by exists s1, e, s2.
Qed.

Lemma recompute_keeps_edges fuel s s' :
  updateCriticalPathStatus fuel s = Returned () s' → edges s' = edges s.
Proof.
  intros H. pose proof (updateCriticalPathStatus_final fuel s) as [He _].
  by rewrite H in He.
Qed.

(** X4. A successful [POST] leaves exactly the edges that were there and
    the pairs from the todo to each listed dependency, every one of which
    is another todo of the store; a successful [DELETE] leaves exactly
    the edges that were there except the pairs from the todo to a listed
    identifier. *)
Theorem edit_edges fuel id dependencyIds s s' :
  (POST fuel id dependencyIds s = Returned DependenciesAdded s' →
     (∀ e, e ∈ edges s' ↔ e ∈ edges s ∨ ∃ d, d ∈ dependencyIds ∧ e = (id, d))
     ∧ ∀ d, d ∈ dependencyIds → d ≠ id ∧ is_Some (findUnique s d))
  ∧ (DELETE fuel id dependencyIds s = Returned DependenciesRemoved s' →
     ∀ e, e ∈ edges s' ↔ e ∈ edges s ∧ ¬ (e.1 = id ∧ e.2 ∈ dependencyIds)).
Proof.
  split.
  - intros (Hid & s1 & e & s2 & Hc & _ & Hu & Hr)%POST_success_inv.
    apply recompute_keeps_edges in Hr. apply update_edges in Hu.
    split.
    + intros x. rewrite Hr, Hu. by apply connect_edges.
    + intros d Hd. apply connect_inv in Hc as (_ & Hex & _).
      split; [by intros ->|by apply Hex].
  - intros (s1 & e & s2 & Hc & _ & Hu & Hr)%DELETE_success_inv.
    apply recompute_keeps_edges in Hr. apply update_edges in Hu.
    apply disconnect_inv in Hc as (_ & _ & Hc).
    intros x. rewrite Hr, Hu, Hc, list_elem_of_filter. tauto.
Qed.

Lemma edit_edges_witness :
  ((∀ e, e ∈ edges (scenarioEnd (day 2) (day 3))
         ↔ e ∈ edges (scenarioMid (day 2) (day 3))
           ∨ ∃ d, d ∈ [1] ∧ e = (2, d))
   ∧ ∀ d, d ∈ [1] → d ≠ 2 ∧ is_Some (findUnique (scenarioMid (day 2) (day 3)) d))
  ∧ (∃ s', DELETE 4 2 [1] (scenarioEnd (day 2) (day 3))
           = Returned DependenciesRemoved s'
       ∧ ∀ e, e ∈ edges s'
              ↔ e ∈ edges (scenarioEnd (day 2) (day 3))
                ∧ ¬ (e.1 = 2 ∧ e.2 ∈ [1])).
Proof.
  split.
  - apply (edit_edges 4 2 [1] (scenarioMid (day 2) (day 3))). reflexivity.
  - eexists. split; [reflexivity|].
    apply (edit_edges 4 2 [1] (scenarioEnd (day 2) (day 3))). reflexivity.
Defined.

(** X5. After a successful [POST] or [DELETE] on a todo, the
    [earliestStart] stored in its row is what [calculateEarliestStart]
    returns for it on the store that the request has left. *)
Theorem edit_persists_earliestStart fuel id dependencyIds s s' :
  POST fuel id dependencyIds s = Returned DependenciesAdded s'
  ∨ DELETE fuel id dependencyIds s = Returned DependenciesRemoved s' →
  ∃ e, calculateEarliestStart fuel s' id = Some e
    ∧ Todo.earliestStart <$> findUnique s' id = Some e.
Proof.
  intros H.
  assert (∃ s1 e s2, calculateEarliestStart fuel s1 id = Some e
            ∧ update id (Todo.set_earliestStart e) s1 = Some s2
            ∧ updateCriticalPathStatus fuel s2 = Returned () s')
    as (s1 & e & s2 & He & Hu & Hr).
  { destruct H as [H|H].
    - apply POST_success_inv in H as (_ & s1 & e & s2 & _ & ? & ? & ?).
      by exists s1, e, s2.
    - apply DELETE_success_inv in H as (s1 & e & s2 & _ & ? & ? & ?).
      by exists s1, e, s2. }
  pose proof (updateCriticalPathStatus_same fuel s2) as Hsame.
  rewrite Hr in Hsame. simpl in Hsame.
  exists e. split.
  - rewrite <-(calculateEarliestStart_same fuel s2 s' id Hsame).
    rewrite (update_updateMany _ _ _ _ Hu).
    rewrite calculateEarliestStart_updateMany; [done|].
    apply keepsDates_rewriteRow, keepsDates_set_earliestStart.
  - rewrite <-(same_earliestStart s2 s' Hsame).
    rewrite (findUnique_update_eq id (Todo.set_earliestStart e) s1 s2
               (λ _, eq_refl) Hu).
    assert (is_Some (findUnique s1 id)) as [t ->]; [|done].
    apply (update_is_Some id (Todo.set_earliestStart e)). eauto.
Qed.

Lemma edit_persists_earliestStart_witness :
  ∃ e, calculateEarliestStart 4 (scenarioEnd (day 2) (day 3)) 2 = Some e
    ∧ Todo.earliestStart <$> findUnique (scenarioEnd (day 2) (day 3)) 2 = Some e.
Proof.
  apply (edit_persists_earliestStart 4 2 [1] (scenarioMid (day 2) (day 3))).
  left. reflexivity.
Defined.



(** ** Requests on a store without cycle *)

Lemma Acyclic_fewer_edges s s' :
  todos s' = todos s → (∀ e, e ∈ edges s' → e ∈ edges s) →
  Acyclic s → Acyclic s'.
Proof.
  intros Ht He Hac x Hx. apply (Hac x). clear Hac.
  assert (∀ a b, tc (depends s') a b → tc (depends s) a b) as Hmono; [|by apply Hmono].
  clear x Hx. intros a b Hab. induction Hab as [x y H|x y z H _ IH].
  - apply tc_once. apply (depends_more_edges s' s); [by symmetry|done|done].
  - apply tc_l with y; [|done].
    apply (depends_more_edges s' s); [by symmetry|done|done].
Qed.

Lemma Acyclic_update i f s s' :
  (∀ t, Todo.id (f t) = Todo.id t) → update i f s = Some s' →
  Acyclic s → Acyclic s'.
Proof.
  intros Hf Hu. rewrite (update_updateMany _ _ _ _ Hu). apply Acyclic_updateMany.
  intros t. unfold rewriteRow. case_decide; [apply Hf|done].
Qed.

Lemma update_length i f s s' :
  update i f s = Some s' → length (todos s') = length (todos s).
Proof.
  unfold update. destruct (findUnique s i); [|done]. intros [= <-]. simpl.
  apply length_map.
Qed.

(** After the edges are written, the rest of a handler returns if the
    store has no cycle. *)
Lemma recompute_after_edit fuel id s1 :
  Acyclic s1 → is_Some (findUnique s1 id) → (length (todos s1) < fuel)%nat →
  ∃ e s2 s', calculateEarliestStart fuel s1 id = Some e
    ∧ update id (Todo.set_earliestStart e) s1 = Some s2
    ∧ updateCriticalPathStatus fuel s2 = Returned () s'
    ∧ Acyclic s' ∧ edges s' = edges s1.
Proof.
  intros Hac Hid Hlt.
  destruct (calculateEarliestStart_returns s1 fuel id Hac Hlt) as [e He].
  destruct (proj2 (update_is_Some id (Todo.set_earliestStart e) s1) Hid)
    as [s2 Hu].
  pose proof (Acyclic_update id (Todo.set_earliestStart e) s1 s2
                (λ _, eq_refl) Hu Hac) as Hac2.
  destruct (updateCriticalPathStatus_returns s2 fuel Hac2) as [s' Hr].
  { by rewrite (update_length _ _ _ _ Hu). }
  exists e, s2, s'. do 3 (split; [done|]).
  pose proof (updateCriticalPathStatus_same fuel s2) as Hsame.
  rewrite Hr in Hsame. simpl in Hsame. split; [by eapply same_Acyclic|].
  by rewrite (recompute_keeps_edges _ _ _ Hr), (update_edges _ _ _ _ Hu).
Qed.

Lemma filter_all {A} (P : A → Prop) `{∀ x, Decision (P x)} (l : list A) :
  (∀ x, x ∈ l → P x) → filter P l = l.
Proof.
  induction l as [|x l IH]; intros Hall; [done|].
  rewrite filter_cons_True by (apply Hall; by left).
  f_equal. apply IH. intros y Hy. apply Hall. by right.
Qed.

(** X7. On a store without dependency cycle, [DELETE] on an existing todo
    always succeeds, with fuel above the number of rows, and leaves a
    store without cycle; when none of the listed identifiers is a
    dependency of the todo, the list being empty for one, the edge table
    is left as it was, and the recompute has run all the same. *)
Theorem DELETE_on_acyclic fuel id dependencyIds s :
  Acyclic s → is_Some (findUnique s id) → (length (todos s) < fuel)%nat →
  ∃ s', DELETE fuel id dependencyIds s = Returned DependenciesRemoved s'
    ∧ Acyclic s'
    ∧ ((∀ d, d ∈ dependencyIds → (id, d) ∉ edges s) → edges s' = edges s).
Proof.
  intros Hac [t Ht] Hlt.
  assert (∃ s1, disconnect id dependencyIds s = Some s1) as [s1 Hd].
  { unfold disconnect. rewrite Ht. by eexists. }
  pose proof (disconnect_inv _ _ _ _ Hd) as (_ & Hts & He).
  destruct (recompute_after_edit fuel id s1) as (e & s2 & s' & Hce & Hu & Hr & Hac' & He').
  - apply (Acyclic_fewer_edges s s1); [done| |done]. intros x.
    rewrite He, list_elem_of_filter. tauto.
  - rewrite (findUnique_todos s s1) by done. eauto.
  - by rewrite Hts.
  - exists s'. split; [by rewrite DELETE_unfold, Hd, Hce, Hu, Hr|].
    split; [done|]. intros Hnone. rewrite He', He. apply filter_all.
    intros [a b] Hab [Ha Hb]. simpl in *. subst a. by apply (Hnone b).
Qed.

Lemma DELETE_on_acyclic_witness :
  ∃ s', DELETE 4 3 [1; 7] (scenarioEnd (day 2) (day 3))
        = Returned DependenciesRemoved s'
    ∧ Acyclic s'
    ∧ ((∀ d, d ∈ [1; 7] → (3, d) ∉ edges (scenarioEnd (day 2) (day 3))) →
       edges s' = edges (scenarioEnd (day 2) (day 3))).
Proof.
  apply (DELETE_on_acyclic 4 3 [1; 7] (scenarioEnd (day 2) (day 3))).
  - apply scenarioEnd_acyclic.
  - by eexists.
  - simpl. lia.
Defined.

(** X8. [POST] succeeds whenever the edges it is asked for can be written
    (the todo and every listed dependency exist), the todo is not in its
    own list, and the store with these edges has no dependency cycle;
    the store that it leaves has no cycle either. *)
Theorem POST_on_acyclic fuel id dependencyIds s s1 :
  connect id dependencyIds s = Some s1 →
  id ∉ dependencyIds →
  Acyclic s1 →
  (length (todos s) < fuel)%nat →
  ∃ s', POST fuel id dependencyIds s = Returned DependenciesAdded s'
    ∧ Acyclic s' ∧ edges s' = edges s1.
Proof.
  intros Hc Hid Hac1 Hlt.
  pose proof (connect_inv _ _ _ _ Hc) as ([t Ht] & Hex & Hts & He).
  assert (Acyclic s) as Hac.
  { apply (Acyclic_fewer_edges s1 s); [done| |done]. intros e Hin.
    apply (connect_edges _ _ _ _ _ Hc). by left. }
  destruct (recompute_after_edit fuel id s1) as (e & s2 & s' & Hce & Hu & Hr & Hac' & He');
    [done|rewrite (findUnique_todos s s1) by done; eauto|by rewrite Hts|].
  exists s'. split; [|done]. rewrite POST_unfold, Ht.
  rewrite checkDependencies_pass; [|done|].
  - by rewrite Hc, Hce, Hu, Hr.
  - apply Forall_forall. intros c Hin [->|Hb]; [done|].
    by apply (hasCircularDependencies_acyclic _ _ _ _ _ Hac) in Hb.
Qed.

Lemma POST_on_acyclic_witness :
  ∃ s', POST 4 2 [1] (scenarioMid (day 2) (day 3)) = Returned DependenciesAdded s'
    ∧ Acyclic s' ∧ edges s' = edges (scenarioEnd (day 2) (day 3)).
Proof.
  apply (POST_on_acyclic 4 2 [1] (scenarioMid (day 2) (day 3))
           (mkStore (todos (scenarioMid (day 2) (day 3))) [(3, 2); (2, 1)])).
  - reflexivity.
  - set_solver.
  - apply (Acyclic_by_calculation _ 3). repeat constructor; by eexists.
  - simpl. lia.
Defined.

Lemma addEdges_present i dependencyIds es :
  (∀ d, d ∈ dependencyIds → (i, d) ∈ es) →
  foldl (λ es d, addEdge (i, d) es) es dependencyIds = es.
Proof.
  induction dependencyIds as [|d l IH]; intros Hall; [done|]. simpl.
  unfold addEdge at 2. rewrite decide_True by (apply Hall; by left).
  apply IH. intros d' Hd'. apply Hall. by right.
Qed.

(** X9. Adding dependencies that the todo already has changes no edge: a
    successful [POST] all of whose candidates are dependencies already
    leaves the join table exactly as it was. *)
Theorem POST_existing_dependencies fuel id dependencyIds s s' :
  POST fuel id dependencyIds s = Returned DependenciesAdded s' →
  (∀ d, d ∈ dependencyIds → (id, d) ∈ edges s) →
  edges s' = edges s.
Proof.
  intros (_ & s1 & e & s2 & Hc & _ & Hu & Hr)%POST_success_inv Hall.
  rewrite (recompute_keeps_edges _ _ _ Hr), (update_edges _ _ _ _ Hu).
  apply connect_inv in Hc as (_ & _ & _ & ->). by apply addEdges_present.
Qed.

Lemma POST_existing_dependencies_witness :
  ∃ s', POST 4 2 [1; 1] (scenarioEnd (day 2) (day 3))
        = Returned DependenciesAdded s'
    ∧ edges s' = edges (scenarioEnd (day 2) (day 3)).
Proof.
  eexists. split; [reflexivity|].
  apply (POST_existing_dependencies 4 2 [1; 1] (scenarioEnd (day 2) (day 3))).
  - reflexivity.
  - intros d Hd. assert (d = 1) as -> by set_solver. set_solver.
Defined.

(** ** Which dependency a backward walk follows *)

Lemma latestDependency_laterOf first deps :
  latestDependency first deps
  = (foldl laterOf (first, completionDate first) deps).1.
Proof. done. Qed.

Lemma laterOf_firstLatest p a l :
  firstLatest p a →
  firstLatest (p ++ l) (foldl laterOf (a, completionDate a) l).1
  ∧ (foldl laterOf (a, completionDate a) l).2
    = completionDate (foldl laterOf (a, completionDate a) l).1.
Proof.
  revert p a. induction l as [|d l IH]; intros p a Hp.
  { rewrite app_nil_r. done. }
  simpl. replace (p ++ d :: l) with ((p ++ [d]) ++ l) by (by rewrite <-app_assoc).
  unfold laterOf at 2 4 6. simpl. destruct Hp as (i & Hi & Hmax & Hfirst).
  case_decide as Hlt; apply IH.
  - exists (length p). split; [by rewrite lookup_app_r, Nat.sub_diag by lia|].
    split.
    + intros x Hx. apply elem_of_app in Hx as [Hx|Hx].
      * specialize (Hmax x Hx). lia.
      * apply list_elem_of_singleton in Hx as ->. lia.
    + intros j x Hj Hx. rewrite lookup_app_l in Hx by done.
      assert (x ∈ p) as Hin by (apply list_elem_of_lookup; eauto).
      specialize (Hmax x Hin). lia.
  - exists i. split; [by apply lookup_app_l_Some|]. split.
    + intros x Hx. apply elem_of_app in Hx as [Hx|Hx]; [by apply Hmax|].
      apply list_elem_of_singleton in Hx as ->. lia.
    + intros j x Hj Hx. apply (Hfirst j x Hj).
      apply lookup_lt_Some in Hi. by rewrite lookup_app_l in Hx by lia.
Qed.

(** X10. The dependency that [markCriticalPath] follows is one with the
    latest completion date (due date, or creation date when there is no
    due date), and among several with that date the one that the store
    lists first: a later entry replaces the choice only if its date is
    strictly later. *)
Theorem latestDependency_first_latest first rest :
  firstLatest (first :: rest) (latestDependency first (first :: rest)).
Proof.
  rewrite latestDependency_laterOf. simpl. unfold laterOf at 2. simpl.
  rewrite decide_False by lia.
  apply (laterOf_firstLatest [first] first rest).
  exists 0%nat. split; [done|]. split.
  - intros d Hd. apply list_elem_of_singleton in Hd as ->. lia.
  - intros j d Hj. lia.
Qed.

(** ** Which todos the recompute marks *)








Lemma latestStep_depends s x y : latestStep s x y → depends s x y.
Proof.
  intros [Hx Hy]. split; [done|]. unfold latestId in Hy.
  destruct (dependencies s x) as [|first rest] eqn:E; [done|].
  injection Hy as <-. apply list_elem_of_fmap.
  exists (latestDependency first (first :: rest)). split; [done|].
  pose proof (latestDependency_elem first (first :: rest)) as Hl.
  apply elem_of_cons in Hl as [->|Hl]; [by left|done].
Qed.







(** ** Reading the relations back *)

Lemma GET_unfold id s :
  GET id s =
  match findUnique s id with
  | None => Returned GetTodoNotFound s
  | Some _ =>
      Returned (Relations (select <$> dependencies s id)
                          (select <$> dependents s id)) s
  end.
Proof.
  unfold GET, try_catch, bind, read, ret. by destruct (findUnique s id).
Qed.

Lemma select_ids (l : list Todo) : Related.id <$> (select <$> l) = Todo.id <$> l.
Proof. rewrite <-list_fmap_compose. by apply list_fmap_ext. Qed.

Lemma dependency_ids_elem s x y :
  y ∈ Todo.id <$> dependencies s x
  ↔ (x, y) ∈ edges s ∧ is_Some (findUnique s y).
Proof.
  rewrite list_elem_of_fmap. split.
  - intros (d & -> & Hd). apply dependencies_elem in Hd as [? ?]. eauto.
  - intros [He [d Hd]]. exists d. pose proof (findUnique_Some _ _ _ Hd) as [<- _].
    split; [done|]. by apply dependencies_elem.
Qed.

Lemma dependent_ids_elem s x y :
  x ∈ Todo.id <$> dependents s y
  ↔ (x, y) ∈ edges s ∧ is_Some (findUnique s x).
Proof.
  rewrite list_elem_of_fmap. split.
  - intros (d & -> & Hd). apply dependents_elem in Hd as [? ?]. eauto.
  - intros [He [d Hd]]. exists d. pose proof (findUnique_Some _ _ _ Hd) as [<- _].
    split; [done|]. by apply dependents_elem.
Qed.

(** X12. [GET] changes nothing and answers 404 exactly on a missing todo;
    for two todos of the store, the first lists the second among its
    dependencies if and only if the second lists the first among its
    dependents. *)
Theorem GET_relations_converse s x y :
  (findUnique s x = None → GET x s = Returned GetTodoNotFound s)
  ∧ (is_Some (findUnique s x) → is_Some (findUnique s y) →
     ∃ dx px dy py,
       GET x s = Returned (Relations dx px) s
       ∧ GET y s = Returned (Relations dy py) s
       ∧ (y ∈ Related.id <$> dx ↔ x ∈ Related.id <$> py)).
Proof.
  split.
  - intros Hx. by rewrite GET_unfold, Hx.
  - intros [tx Hx] [ty Hy]. eexists _, _, _, _.
    split; [by rewrite GET_unfold, Hx|]. split; [by rewrite GET_unfold, Hy|].
    rewrite !select_ids, dependency_ids_elem, dependent_ids_elem.
    rewrite Hx, Hy. naive_solver.
Qed.

Lemma GET_relations_converse_witness :
  GET 7 (scenarioEnd (day 2) (day 3))
  = Returned GetTodoNotFound (scenarioEnd (day 2) (day 3))
  ∧ ∃ dx px dy py,
      GET 3 (scenarioEnd (day 2) (day 3))
      = Returned (Relations dx px) (scenarioEnd (day 2) (day 3))
      ∧ GET 2 (scenarioEnd (day 2) (day 3))
        = Returned (Relations dy py) (scenarioEnd (day 2) (day 3))
      ∧ (2 ∈ Related.id <$> dx ↔ 3 ∈ Related.id <$> py).
Proof.
  split.
  - apply (GET_relations_converse (scenarioEnd (day 2) (day 3)) 7 7). reflexivity.
  - apply (GET_relations_converse (scenarioEnd (day 2) (day 3)) 3 2); by eexists.
Defined.

Lemma POST_success_spec fuel id dependencyIds s s' :
  POST fuel id dependencyIds s = Returned DependenciesAdded s' →
  (∀ e, e ∈ edges s' ↔ e ∈ edges s ∨ ∃ d, d ∈ dependencyIds ∧ e = (id, d))
  ∧ is_Some (findUnique s id)
  ∧ (∀ d, d ∈ dependencyIds → is_Some (findUnique s d))
  ∧ Todo.id <$> todos s' = Todo.id <$> todos s.
Proof.
  intros (Hid & s1 & e & s2 & Hc & _ & Hu & Hr)%POST_success_inv.
  pose proof (updateCriticalPathStatus_final fuel s2) as [He3 Hi3].
  rewrite Hr in He3, Hi3. simpl in He3, Hi3.
  pose proof (update_edges _ _ _ _ Hu) as He2.
  pose proof (update_ids id (Todo.set_earliestStart e) s1 s2 (λ _, eq_refl) Hu)
    as Hi2.
  pose proof (connect_inv _ _ _ _ Hc) as (Hx & Hex & Ht & _).
  split; [|split; [done|split; [done|]]].
  - intros x. rewrite He3, He2. by apply connect_edges.
  - by rewrite Hi3, Hi2, Ht.
Qed.

Lemma DELETE_success_spec fuel id dependencyIds s s' :
  DELETE fuel id dependencyIds s = Returned DependenciesRemoved s' →
  (∀ e, e ∈ edges s' ↔ e ∈ edges s ∧ ¬ (e.1 = id ∧ e.2 ∈ dependencyIds))
  ∧ is_Some (findUnique s id)
  ∧ Todo.id <$> todos s' = Todo.id <$> todos s.
Proof.
  intros (s1 & e & s2 & Hc & _ & Hu & Hr)%DELETE_success_inv.
  pose proof (updateCriticalPathStatus_final fuel s2) as [He3 Hi3].
  rewrite Hr in He3, Hi3. simpl in He3, Hi3.
  pose proof (update_edges _ _ _ _ Hu) as He2.
  pose proof (update_ids id (Todo.set_earliestStart e) s1 s2 (λ _, eq_refl) Hu)
    as Hi2.
  pose proof (disconnect_inv _ _ _ _ Hc) as (Hx & Ht & He).
  split; [|split; [done|]].
  - intros x. rewrite He3, He2, He, list_elem_of_filter. tauto.
  - by rewrite Hi3, Hi2, Ht.
Qed.

(** X13. What a successful edit writes can be read back: after a
    successful [POST], [GET] on the todo lists every added dependency,
    and [GET] on each of them lists the todo among its dependents; after
    a successful [DELETE], [GET] on the todo lists none of the removed
    identifiers. *)
Theorem edit_then_GET fuel id dependencyIds s s' :
  (POST fuel id dependencyIds s = Returned DependenciesAdded s' →
     ∃ dx px, GET id s' = Returned (Relations dx px) s'
       ∧ ∀ d, d ∈ dependencyIds →
           d ∈ Related.id <$> dx
           ∧ ∃ dd pd, GET d s' = Returned (Relations dd pd) s'
               ∧ id ∈ Related.id <$> pd)
  ∧ (DELETE fuel id dependencyIds s = Returned DependenciesRemoved s' →
     ∃ dx px, GET id s' = Returned (Relations dx px) s'
       ∧ ∀ d, d ∈ dependencyIds → d ∉ Related.id <$> dx).
Proof.
  split.
  - intros (He & Hid & Hex & Hi)%POST_success_spec.
    apply (is_Some_findUnique_ids s s' id Hi) in Hid as Hid'.
    destruct Hid' as [t Ht]. eexists _, _.
    split; [by rewrite GET_unfold, Ht|]. intros d Hd.
    assert (is_Some (findUnique s' d)) as [td Htd].
    { apply (is_Some_findUnique_ids s s' d Hi). by apply Hex. }
    assert ((id, d) ∈ edges s') as Hedge by (apply He; right; eauto).
    split.
    + rewrite select_ids. apply dependency_ids_elem. eauto.
    + eexists _, _. split; [by rewrite GET_unfold, Htd|].
      rewrite select_ids. apply dependent_ids_elem. eauto.
  - intros (He & Hid & Hi)%DELETE_success_spec.
    apply (is_Some_findUnique_ids s s' id Hi) in Hid as [t Ht]. eexists _, _.
    split; [by rewrite GET_unfold, Ht|]. intros d Hd.
    rewrite select_ids, dependency_ids_elem. intros [Hedge _].
    apply He in Hedge as [_ Hn]. by apply Hn.
Qed.

Lemma edit_then_GET_witness :
  (∃ dx px, GET 2 (scenarioEnd (day 2) (day 3))
            = Returned (Relations dx px) (scenarioEnd (day 2) (day 3))
     ∧ ∀ d, d ∈ [1] →
         d ∈ Related.id <$> dx
         ∧ ∃ dd pd, GET d (scenarioEnd (day 2) (day 3))
                    = Returned (Relations dd pd) (scenarioEnd (day 2) (day 3))
             ∧ 2 ∈ Related.id <$> pd)
  ∧ ∃ s', DELETE 4 2 [1] (scenarioEnd (day 2) (day 3))
          = Returned DependenciesRemoved s'
      ∧ ∃ dx px, GET 2 s' = Returned (Relations dx px) s'
          ∧ ∀ d, d ∈ [1] → d ∉ Related.id <$> dx.
Proof.
  split.
  - apply (edit_then_GET 4 2 [1] (scenarioMid (day 2) (day 3))). reflexivity.
  - eexists. split; [reflexivity|].
    apply (edit_then_GET 4 2 [1] (scenarioEnd (day 2) (day 3))). reflexivity.
Defined.

(** ** The dialog *)

Lemma toAdd_elem selected current d :
  d ∈ toAdd selected current ↔ d ∈ selected ∧ d ∉ current.
Proof. unfold toAdd. rewrite list_elem_of_filter. tauto. Qed.

Lemma toRemove_elem selected current d :
  d ∈ toRemove selected current ↔ d ∈ current ∧ d ∉ selected.
Proof. unfold toRemove. rewrite list_elem_of_filter. tauto. Qed.

(** X14. The two lists that [handleSave] computes are disjoint, add
    nothing that is a dependency already and remove nothing that is not
    one; applied to the current dependencies (add the first, remove the
    second) they give exactly the selected ones; and both are empty
    exactly when the selection and the current dependencies have the same
    members. *)
Theorem handleSave_difference (selected current : list Z) :
  (∀ d, d ∈ selected
        ↔ (d ∈ current ∨ d ∈ toAdd selected current)
          ∧ d ∉ toRemove selected current)
  ∧ (∀ d, d ∈ toAdd selected current → d ∉ current)
  ∧ (∀ d, d ∈ toRemove selected current → d ∈ current)
  ∧ (∀ d, d ∈ toAdd selected current → d ∉ toRemove selected current)
  ∧ (toAdd selected current = [] ∧ toRemove selected current = []
     ↔ ∀ d, d ∈ selected ↔ d ∈ current).
Proof.
  split; [|split; [|split; [|split]]].
  - intros d. rewrite toAdd_elem, toRemove_elem.
    destruct (decide (d ∈ current)); destruct (decide (d ∈ selected)); tauto.
  - intros d. rewrite toAdd_elem. tauto.
  - intros d. rewrite toRemove_elem. tauto.
  - intros d. rewrite toAdd_elem, toRemove_elem. tauto.
  - split.
    + intros [Ha Hr] d. split; intros Hd.
      * destruct (decide (d ∈ current)) as [|Hn]; [done|].
        assert (d ∈ toAdd selected current) as Hin by (by apply toAdd_elem).
        rewrite Ha in Hin. by apply elem_of_nil in Hin.
      * destruct (decide (d ∈ selected)) as [|Hn]; [done|].
        assert (d ∈ toRemove selected current) as Hin by (by apply toRemove_elem).
        rewrite Hr in Hin. by apply elem_of_nil in Hin.
    + intros Heq. split.
      * destruct (toAdd selected current) as [|d l] eqn:E; [done|].
        assert (d ∈ toAdd selected current) as Hin by (rewrite E; by left).
        apply toAdd_elem in Hin as [Hin Hn]. by apply Heq in Hin.
      * destruct (toRemove selected current) as [|d l] eqn:E; [done|].
        assert (d ∈ toRemove selected current) as Hin by (rewrite E; by left).
        apply toRemove_elem in Hin as [Hin Hn]. by apply Heq in Hin.
Qed.

(** X15. Toggling an identifier in the selection flips whether that
    identifier is selected and leaves every other one as it was; a
    selection without repetition stays without repetition, and toggling
    the same identifier twice gives back a selection with the same
    members. *)
Theorem handleDependencyToggle_flips (prev : list Z) (todoId : Z) :
  (∀ d, d ∈ handleDependencyToggle prev todoId
        ↔ (d = todoId ∧ todoId ∉ prev) ∨ (d ≠ todoId ∧ d ∈ prev))
  ∧ (NoDup prev → NoDup (handleDependencyToggle prev todoId))
  ∧ (∀ d, d ∈ handleDependencyToggle (handleDependencyToggle prev todoId) todoId
          ↔ d ∈ prev).
Proof.
  assert (∀ l x d, d ∈ handleDependencyToggle l x
                   ↔ (d = x ∧ x ∉ l) ∨ (d ≠ x ∧ d ∈ l)) as Hflip.
  { intros l x d. unfold handleDependencyToggle. case_decide as Hx.
    - rewrite list_elem_of_filter. naive_solver.
    - rewrite elem_of_app, list_elem_of_singleton.
      destruct (decide (d = x)); naive_solver. }
  split; [apply Hflip|]. split.
  - intros Hnd. unfold handleDependencyToggle. case_decide as Hx.
    + by apply NoDup_filter.
    + apply NoDup_app. split; [done|]. split; [|apply NoDup_singleton].
      intros d Hd Hd'. apply list_elem_of_singleton in Hd'. by subst.
  - intros d. rewrite !Hflip.
    destruct (decide (d = todoId)) as [->|]; destruct (decide (todoId ∈ prev));
      naive_solver.
Qed.

Lemma handleDependencyToggle_flips_witness :
  NoDup (handleDependencyToggle [1; 2] 2)
  ∧ NoDup (handleDependencyToggle [1; 2] 3).
Proof.
  split.
  - apply (handleDependencyToggle_flips [1; 2] 2). repeat constructor; set_solver.
  - apply (handleDependencyToggle_flips [1; 2] 3). repeat constructor; set_solver.
Defined.

Lemma add_phase fuel x (A : list Z) s ra s1 :
  match A with
  | [] => ret None
  | _ :: _ => await r ← POST fuel x A; ret (Some r)
  end s = Returned ra s1 →
  ra = None ∨ ra = Some DependenciesAdded →
  (∀ e, e ∈ edges s1 ↔ e ∈ edges s ∨ ∃ d, d ∈ A ∧ e = (x, d))
  ∧ (∀ d, d ∈ A → is_Some (findUnique s d))
  ∧ Todo.id <$> todos s1 = Todo.id <$> todos s.
Proof.
  destruct A as [|a A'].
  - intros [= <- <-] _. split; [|split; [|done]].
    + intros e. split; [by left|]. intros [?|(d & Hd & _)]; [done|].
      by apply elem_of_nil in Hd.
    + intros d Hd. by apply elem_of_nil in Hd.
  - unfold bind, ret.
    destruct (POST fuel x (a :: A') s) as [r s1'|s1'|s1'] eqn:E; [|done..].
    intros [= <- <-] [?|[= ->]]; [done|].
    apply POST_success_spec in E as (He & _ & Hex & Hi). done.
Qed.

Lemma remove_phase fuel x (R : list Z) s rr s1 :
  match R with
  | [] => ret None
  | _ :: _ => await r ← DELETE fuel x R; ret (Some r)
  end s = Returned rr s1 →
  rr = None ∨ rr = Some DependenciesRemoved →
  (∀ e, e ∈ edges s1 ↔ e ∈ edges s ∧ ¬ (e.1 = x ∧ e.2 ∈ R))
  ∧ Todo.id <$> todos s1 = Todo.id <$> todos s.
Proof.
  destruct R as [|a R'].
  - intros [= <- <-] _. split; [|done].
    intros e. split; [|tauto]. intros He. split; [done|]. intros [_ Hd].
    by apply elem_of_nil in Hd.
  - unfold bind, ret.
    destruct (DELETE fuel x (a :: R') s) as [r s1'|s1'|s1'] eqn:E; [|done..].
    intros [= <- <-] [?|[= ->]]; [done|].
    apply DELETE_success_spec in E as (He & _ & Hi). done.
Qed.

(** X16. Saving the dialog makes the dependencies of the todo exactly the
    selected ones: if the dialog was opened on the dependencies that the
    todo has in the store, and each of the two requests of [handleSave]
    either had nothing to send or was answered with success, then
    afterwards the todo depends on an identifier if and only if it was
    selected. *)
Theorem handleSave_applies_selection fuel x current selected s added removed s' :
  (∀ d, d ∈ current ↔ d ∈ Todo.id <$> dependencies s x) →
  handleSave fuel x current selected s = Returned (added, removed) s' →
  added = None ∨ added = Some DependenciesAdded →
  removed = None ∨ removed = Some DependenciesRemoved →
  ∀ d, d ∈ Todo.id <$> dependencies s' x ↔ d ∈ selected.
Proof.
  intros Hcur H Ha Hr. unfold handleSave in H. unfold bind at 1 in H.
  match type of H with context [match ?m s with _ => _ end] =>
    destruct (m s) as [ra s1|s1|s1] eqn:E1 end; [|done..].
  unfold bind at 1 in H.
  match type of H with context [match ?m s1 with _ => _ end] =>
    destruct (m s1) as [rr s2|s2|s2] eqn:E2 end; [|done..].
  injection H as <- <- <-.
  apply add_phase in E1 as (He1 & Hex & Hi1); [|done].
  apply remove_phase in E2 as (He2 & Hi2); [|done].
  intros d. rewrite dependency_ids_elem, He2, He1. simpl.
  rewrite (is_Some_findUnique_ids s1 s2 d Hi2), (is_Some_findUnique_ids s s1 d Hi1).
  rewrite toRemove_elem.
  pose proof (Hcur d) as Hd. rewrite dependency_ids_elem in Hd.
  pose proof (toAdd_elem selected current d) as HA. split.
  - intros [[[Hedge|(d' & Hd' & [= <-])] Hn] Hsome].
    + destruct (decide (d ∈ selected)) as [|Hsel]; [done|].
      destruct Hn. split; [done|]. split; [|done]. apply Hd. done.
    + by apply toAdd_elem in Hd' as [? _].
  - intros Hsel. destruct (decide (d ∈ current)) as [Hc|Hc].
    + apply Hd in Hc as [Hedge Hsome]. split; [|done]. split; [by left|]. tauto.
    + assert (d ∈ toAdd selected current) as Hin by (apply HA; done).
      split; [|by apply Hex]. split; [right; eauto|]. tauto.
Qed.

Lemma handleSave_applies_selection_witness :
  ∃ s', handleSave 4 3 [2] [1] (scenarioEnd (day 2) (day 3))
        = Returned (Some DependenciesAdded, Some DependenciesRemoved) s'
    ∧ ∀ d, d ∈ Todo.id <$> dependencies s' 3 ↔ d ∈ [1].
Proof.
  eexists. split; [vm_compute; reflexivity|].
  apply (handleSave_applies_selection 4 3 [2] [1] (scenarioEnd (day 2) (day 3))
           (Some DependenciesAdded) (Some DependenciesRemoved)).
  - intros d. vm_compute. done.
  - vm_compute. reflexivity.
  - by right.
  - by right.
Defined.
